(** * threejs-rapier-test: the fixed-timestep loop, the FPS tracker and the
    FPS-gated spawner of [src/App.tsx]

    The file embeds the authored logic of [App.tsx]:
    - [FPSTracker.update]   (App.tsx, lines 24-41),
    - [spawnCube]           (App.tsx, lines 111-128),
    - [frame]               (App.tsx, lines 131-150),
    over JavaScript numbers, which are IEEE 754 binary64 values and are
    modelled by Rocq's primitive [float]s.  The rendering library (three.js)
    is modelled by the part of the scene graph the code touches; the physics
    engine (Rapier) is an interface, a type class, so every statement holds for
    any engine behind it. *)

From Stdlib Require Import ZArith QArith Qround Qpower Floats Lia Lqa Bool.
From Equations Require Import Equations.
From stdpp Require Import base list.

Set Warnings "-inexact-float".

(** ** JavaScript numbers *)

Module JS.

(** A JavaScript number is a binary64 float. *)
Definition number : Type := float.

(** The number an integer denotes: the double nearest to it, the integer
    itself below 2^53 in absolute value. *)
Definition of_Z (n : Z) : number :=
  SF2Prim (binary_normalize prec emax n 0 false).

(** [Math.round]: the integer closest to [x], ties going towards +infinity;
    NaN, the infinities, the zeros and integral values are returned as they
    are, and a result that would be 0 keeps the sign of [x]
    (ECMAScript, Math.round).  A finite [x] is [(-1)^s * m * 2^e]; for
    [e < 0] the result is [floor (x + 1/2)], computed on integers. *)
Definition Math_round (x : number) : number :=
  match Prim2SF x with
  | S754_finite s m e =>
      if (0 <=? e)%Z then x
      else
        let k := (- e)%Z in
        let n := ((cond_Zopp s (2 * Z.pos m) + 2 ^ k) / 2 ^ (k + 1))%Z in
        if (n =? 0)%Z then (if s then neg_zero else zero) else of_Z n
  | _ => x
  end.

(** The rational a finite number denotes (0 for NaN and the infinities, which
    denote none). *)
Definition toQ (x : number) : Q :=
  match Prim2SF x with
  | S754_finite s m e =>
      (inject_Z (cond_Zopp s (Z.pos m)) * Qpower 2 e)%Q
  | _ => 0%Q
  end.

(** A number that is neither NaN nor an infinity. *)
Definition isFinite (x : number) : bool :=
  match Prim2SF x with
  | S754_zero _ | S754_finite _ _ _ => true
  | _ => false
  end.

(** A value that is a zero, a positive finite number or +infinity: what
    [0 <= x] says of a number. *)
Definition SFnonneg (x : spec_float) : bool :=
  match x with
  | S754_zero _ => true
  | S754_infinity s | S754_finite s _ _ => negb s
  | S754_nan => false
  end.

End JS.

Bind Scope float_scope with JS.number.

(** ** Arithmetic the loop is run on

    The accumulator loop only adds, subtracts and compares.  It is written
    once over this interface and run on the numbers of the code
    ([float_Number]) and, for the counting identity of the specification, on
    exact rationals ([Q_Number]). *)

Class Number (num : Type) := {
  nadd : num -> num -> num;
  nsub : num -> num -> num;
  (** [ngeb x y] is the test [x >= y] *)
  ngeb : num -> num -> bool
}.

#[export] Instance float_Number : Number JS.number := {|
  nadd := PrimFloat.add;
  nsub := PrimFloat.sub;
  ngeb := fun x y => PrimFloat.leb y x
|}.

#[export] Instance Q_Number : Number Q := {|
  nadd := Qplus;
  nsub := Qminus;
  ngeb := fun x y => Qle_bool y x
|}.

(** ** The stepping loop of [frame] (App.tsx, lines 134 and 137-142)

<<
      accumulator += clock.getDelta();
      ...
      let steps = 0;
      while (accumulator >= fixedTimestep && steps < 5) {
        world.step();
        accumulator -= fixedTimestep;
        steps += 1;
      }
>>
    [W] is whatever [world.step()] acts on. *)

Section SteppingLoop.

Context {num : Type} `{Number num} {W : Type}.
Variable step : W -> W.
Variable fixedTimestep : num.

Record LoopState := mkLoop {
  loop_world : W;
  loop_accumulator : num;
  loop_steps : nat
}.

(** The loop condition [accumulator >= fixedTimestep && steps < 5]. *)
Definition loopCond (s : LoopState) : bool :=
  ngeb (loop_accumulator s) fixedTimestep && (loop_steps s <? 5)%nat.

(** The loop body. *)
Definition loopBody (s : LoopState) : LoopState :=
  {| loop_world := step (loop_world s);
     loop_accumulator := nsub (loop_accumulator s) fixedTimestep;
     loop_steps := S (loop_steps s) |}.

Definition inspect {A : Type} (a : A) : {b : A | a = b} := exist _ a eq_refl.

(** The [while] loop; it terminates because [5 - steps] decreases. *)
Equations? stepLoop (s : LoopState) : LoopState by wf (5 - loop_steps s)%nat lt :=
  stepLoop s with inspect (loopCond s) := {
    | exist _ true _ => stepLoop (loopBody s)
    | exist _ false _ => s }.
Proof.
  unfold loopCond in e. apply andb_prop in e as [_ e].
  apply Nat.ltb_lt in e. simpl. lia.
Qed.

(** [accumulator += dt; let steps = 0; while ...]. *)
Definition advance (w : W) (accumulator dt : num) : LoopState :=
  stepLoop {| loop_world := w; loop_accumulator := nadd accumulator dt; loop_steps := 0 |}.

(** Successive invocations with samples [dts]: the state each one leaves its
    loop in (its [loop_steps] is the number of steps of that invocation). *)
Fixpoint advances (w : W) (accumulator : num) (dts : list num) : list LoopState :=
  match dts with
  | [] => []
  | dt :: dts' =>
      let l := advance w accumulator dt in
      l :: advances (loop_world l) (loop_accumulator l) dts'
  end.

(** The accumulator after these invocations, [accumulator] when there is none. *)
Definition accumulatorAfter (accumulator : num) (ls : list LoopState) : num :=
  from_option loop_accumulator accumulator (last ls).

End SteppingLoop.

(** The number of steps of a sequence of invocations. *)
Definition totalSteps {num W : Type} (ls : list (@LoopState num W)) : nat :=
  sum_list (loop_steps <$> ls).

(** The sum of a list of rationals. *)
Definition Qsum (l : list Q) : Q := foldr Qplus 0%Q l.

(** ** [class FPSTracker] (App.tsx, lines 24-41) *)

Module FPSTracker.

Record t := mk {
  fps : JS.number;
  frameCount : JS.number;
  lastTime : JS.number
}.

(** [new FPSTracker()] at time [now = performance.now()]. *)
Definition new (now : JS.number) : t :=
  {| fps := 0%float; frameCount := 0%float; lastTime := now |}.

(** [update()], with [currentTime] the value [performance.now()] returns;
    the result is the returned number and the tracker after the call. *)
Definition update (currentTime : JS.number) (tr : t) : JS.number * t :=
  let frameCount1 := (frameCount tr + 1)%float in
  if (lastTime tr + 500 <=? currentTime)%float then
    let fps1 := JS.Math_round ((frameCount1 * 1000) / (currentTime - lastTime tr))%float in
    (fps1, {| fps := fps1; frameCount := 0%float; lastTime := currentTime |})
  else
    (fps tr, {| fps := fps tr; frameCount := frameCount1; lastTime := lastTime tr |}).

(** Successive calls of [update()] at the times [times]: the values returned
    and the tracker after the last call. *)
Fixpoint updates (times : list JS.number) (tr : t) : list JS.number * t :=
  match times with
  | [] => ([], tr)
  | now :: times' =>
      let '(r, tr1) := update now tr in
      let '(rs, tr2) := updates times' tr1 in
      (r :: rs, tr2)
  end.

End FPSTracker.

(** ** three.js: the part of the scene graph the code touches *)

Module THREE.

Record Vector3 := mkVector3 { v_x : JS.number; v_y : JS.number; v_z : JS.number }.

Record Quaternion := mkQuaternion {
  q_x : JS.number; q_y : JS.number; q_z : JS.number; q_w : JS.number
}.

(** What the scene holds: the two lights, the ground mesh and cube meshes. *)
Inductive ObjectKind := AmbientLight | DirectionalLight | GroundMesh | CubeMesh.

(** An [Object3D] with the fields the code reads or writes. *)
Record Object3D := mkObject3D {
  kind : ObjectKind;
  position : Vector3;
  quaternion : Quaternion;
  castShadow : bool;
  receiveShadow : bool
}.

(** A fresh object: at the origin, not rotated, no shadows. *)
Definition new_Object3D (k : ObjectKind) : Object3D :=
  {| kind := k;
     position := mkVector3 0 0 0;
     quaternion := mkQuaternion 0 0 0 1;
     castShadow := false;
     receiveShadow := false |}.

(** [o.position.copy(v); o.quaternion.copy(q)]. *)
Definition copyTransform (v : Vector3) (q : Quaternion) (o : Object3D) : Object3D :=
  {| kind := kind o;
     position := v;
     quaternion := q;
     castShadow := castShadow o;
     receiveShadow := receiveShadow o |}.

(** [scene.children]; [scene.add(o)] appends.  An object is referred to by
    its index in this list: the reference a cube pair holds to its mesh and
    the entry of the scene are the same object. *)
Abbreviation Scene := (list Object3D).

Definition add (o : Object3D) (scene : Scene) : Scene := scene ++ [o].

End THREE.

(** ** Rapier: the physics engine, as the interface the code calls *)

Module RAPIER.

Inductive RigidBodyType := Fixed | Dynamic.

(** [RigidBodyDesc.fixed()] or [.dynamic()], then [.setTranslation(x, y, z)]. *)
Record RigidBodyDesc := mkRigidBodyDesc {
  bodyType : RigidBodyType;
  desc_translation : THREE.Vector3
}.

(** [ColliderDesc.cuboid(hx, hy, hz)]. *)
Record ColliderDesc := cuboid { hx : JS.number; hy : JS.number; hz : JS.number }.

(** The calls of [App.tsx] into the engine.  A call that changes the world
    returns the world after it. *)
Class Engine := {
  World : Type;
  RigidBody : Type;
  Collider : Type;
  new_World : THREE.Vector3 -> World;
  createRigidBody : RigidBodyDesc -> World -> RigidBody * World;
  createCollider : ColliderDesc -> RigidBody -> World -> Collider * World;
  setRestitution : JS.number -> Collider -> World -> World;
  setFriction : JS.number -> Collider -> World -> World;
  step : World -> World;
  translation : RigidBody -> World -> THREE.Vector3;
  rotation : RigidBody -> World -> THREE.Quaternion
}.

End RAPIER.

(** ** The state of [App] and its two callbacks *)

(** [const fixedTimestep = 0.016] (App.tsx, line 131). *)
Definition fixedTimestep : JS.number := 0.016%float.

Section App.

Context {engine : RAPIER.Engine}.

(** An entry of [cubes]: [{ mesh, rigidBody }]. *)
Record Cube := mkCube {
  mesh : nat;
  rigidBody : RAPIER.RigidBody
}.

(** The calls the two callbacks make into the libraries to change the scene
    or the world or to draw, in the order they are made (a ghost record: the
    code keeps none).  [CallCopy c] stands for the two [copy] calls on the
    mesh of [c]; [CallRender children] carries the scene as it is drawn. *)
Inductive Call :=
| CallSceneAdd (o : THREE.Object3D)
| CallCreateRigidBody (d : RAPIER.RigidBodyDesc)
| CallCreateCollider (d : RAPIER.ColliderDesc)
| CallSetRestitution (r : JS.number)
| CallSetFriction (f : JS.number)
| CallStep
| CallCopy (c : Cube)
| CallRender (children : THREE.Scene).

(** The variables of the effect's closure (App.tsx, lines 55-132) and the two
    React states. *)
Record App := mkApp {
  scene : THREE.Scene;
  world : RAPIER.World;
  fpsTracker : FPSTracker.t;
  cubes : list Cube;
  accumulator : JS.number;
  fps : JS.number;
  cubesAmount : nat;
  calls : list Call
}.

(** The initial setup (App.tsx, lines 55-109 and 131-132), at time [now]. *)
Definition setup (now : JS.number) : App :=
  let ambientLight := THREE.new_Object3D THREE.AmbientLight in
  let directionalLight :=
    {| THREE.kind := THREE.DirectionalLight;
       THREE.position := THREE.mkVector3 10 10 5;
       THREE.quaternion := THREE.mkQuaternion 0 0 0 1;
       THREE.castShadow := true;
       THREE.receiveShadow := false |} in
  let ground :=
    {| THREE.kind := THREE.GroundMesh;
       THREE.position := THREE.mkVector3 0 0 0;
       THREE.quaternion := THREE.mkQuaternion 0 0 0 1;
       THREE.castShadow := false;
       THREE.receiveShadow := true |} in
  let world0 := RAPIER.new_World (THREE.mkVector3 0 (-9.81) 0) in
  let groundBodyDesc := RAPIER.mkRigidBodyDesc RAPIER.Fixed (THREE.mkVector3 0 0 0) in
  let '(groundBody, world1) := RAPIER.createRigidBody groundBodyDesc world0 in
  let '(_, world2) := RAPIER.createCollider (RAPIER.cuboid 25 1 25) groundBody world1 in
  {| scene := THREE.add ground (THREE.add directionalLight (THREE.add ambientLight []));
     world := world2;
     fpsTracker := FPSTracker.new now;
     cubes := [];
     accumulator := 0%float;
     fps := 0%float;
     cubesAmount := 0;
     calls := [] |}.

(** [spawnCube()] (App.tsx, lines 111-128); [r1] and [r2] are the two values
    [Math.random()] returns. *)
Definition spawnCube (r1 r2 : JS.number) (a : App) : App :=
  if (50 <? FPSTracker.fps (fpsTracker a))%float then
    let cube :=
      {| THREE.kind := THREE.CubeMesh;
         THREE.position := THREE.mkVector3 0 0 0;
         THREE.quaternion := THREE.mkQuaternion 0 0 0 1;
         THREE.castShadow := true;
         THREE.receiveShadow := true |} in
    let cubeRef := length (scene a) in
    let rigidBodyDesc :=
      RAPIER.mkRigidBodyDesc RAPIER.Dynamic (THREE.mkVector3 (r1 * 3) 15 (r2 * 3)) in
    let '(rigidBody, world1) := RAPIER.createRigidBody rigidBodyDesc (world a) in
    let cubeColliderDesc := RAPIER.cuboid 1 1 1 in
    let '(cubeCollider, world2) := RAPIER.createCollider cubeColliderDesc rigidBody world1 in
    let world3 := RAPIER.setRestitution 0.5 cubeCollider world2 in
    let world4 := RAPIER.setFriction 0.5 cubeCollider world3 in
    let cubes1 := cubes a ++ [mkCube cubeRef rigidBody] in
    {| scene := THREE.add cube (scene a);
       world := world4;
       fpsTracker := fpsTracker a;
       cubes := cubes1;
       accumulator := accumulator a;
       fps := fps a;
       cubesAmount := length cubes1;
       calls := calls a ++ [CallSceneAdd cube; CallCreateRigidBody rigidBodyDesc;
                            CallCreateCollider cubeColliderDesc;
                            CallSetRestitution 0.5; CallSetFriction 0.5] |}
  else a.

(** [world.step()], recorded. *)
Definition stepWorld (wl : RAPIER.World * list Call) : RAPIER.World * list Call :=
  (RAPIER.step (fst wl), snd wl ++ [CallStep]).

(** One iteration of [cubes.forEach(({ mesh, rigidBody }) => ...)]
    (App.tsx, lines 144-147).  The index of a cube's mesh is always inside
    [scene]; outside it [alter] changes nothing. *)
Definition syncCube (w : RAPIER.World) (sl : THREE.Scene * list Call) (c : Cube)
  : THREE.Scene * list Call :=
  (alter (THREE.copyTransform (RAPIER.translation (rigidBody c) w)
                              (RAPIER.rotation (rigidBody c) w))
         (mesh c) (fst sl),
   snd sl ++ [CallCopy c]).

(** The whole [forEach]. *)
Definition syncCubes (w : RAPIER.World) (cs : list Cube) (sl : THREE.Scene * list Call)
  : THREE.Scene * list Call :=
  foldl (syncCube w) sl cs.

(** [frame()] (App.tsx, lines 133-150); [dt] is what [clock.getDelta()]
    returns and [now] what [performance.now()] returns inside
    [fpsTracker.update()]. *)
Definition frame (dt now : JS.number) (a : App) : App :=
  let '(estimate, tracker1) := FPSTracker.update now (fpsTracker a) in
  let l := advance stepWorld fixedTimestep (world a, calls a) (accumulator a) dt in
  let '(world1, calls1) := loop_world l in
  let '(scene1, calls2) := syncCubes world1 (cubes a) (scene a, calls1) in
  {| scene := scene1;
     world := world1;
     fpsTracker := tracker1;
     cubes := cubes a;
     accumulator := loop_accumulator l;
     fps := estimate;
     cubesAmount := cubesAmount a;
     calls := calls2 ++ [CallRender scene1] |}.

(** The two callback sources: the interval timer ([setInterval(spawnCube, 100)])
    and the animation loop ([renderer.setAnimationLoop(frame)]). *)
Inductive Event :=
| Spawn (r1 r2 : JS.number)
| Frame (dt now : JS.number).

Definition handle (a : App) (e : Event) : App :=
  match e with
  | Spawn r1 r2 => spawnCube r1 r2 a
  | Frame dt now => frame dt now a
  end.

(** Callbacks run to completion, one after the other. *)
Definition run (evs : list Event) (a : App) : App := foldl handle a evs.

(** The number of [world.step()] calls in a record of calls. *)
Definition isStep (c : Call) : bool :=
  match c with CallStep => true | _ => false end.

Definition stepCalls (l : list Call) : nat := length (List.filter isStep l).

(** The value [steps] has when the loop of [frame dt _ a] is left. *)
Definition stepsTaken (dt : JS.number) (a : App) : nat :=
  loop_steps (advance stepWorld fixedTimestep (world a, calls a) (accumulator a) dt).

(** The samples of the clock are not negative. *)
Definition nonnegDelta (e : Event) : Prop :=
  match e with
  | Frame dt _ => (0 <=? dt)%float = true
  | Spawn _ _ => True
  end.

(** The meshes of the cube pairs are objects of the scene, each pair its own. *)
Definition meshesInScene (a : App) : Prop :=
  NoDup (mesh <$> cubes a) /\ Forall (fun c => mesh c < length (scene a)) (cubes a).

End App.

(** ** A small engine to run the code on

    Bodies are kept in a list and named by their index; a step lets every
    dynamic body fall a quarter of a unit, with no collision.  It stands in
    for Rapier where a statement is evaluated on a concrete run. *)

Module Falling.

Record Body := mkBody {
  body_type : RAPIER.RigidBodyType;
  body_translation : THREE.Vector3;
  body_rotation : THREE.Quaternion
}.

Record World := mkWorld {
  bodies : list Body;
  colliders : list (nat * RAPIER.ColliderDesc * JS.number * JS.number)
}.

Definition fall (b : Body) : Body :=
  match body_type b with
  | RAPIER.Fixed => b
  | RAPIER.Dynamic =>
      let t := body_translation b in
      mkBody RAPIER.Dynamic
        (THREE.mkVector3 (THREE.v_x t) (THREE.v_y t - 0.25) (THREE.v_z t))
        (body_rotation b)
  end.

Definition origin : THREE.Vector3 := THREE.mkVector3 0 0 0.
Definition identity : THREE.Quaternion := THREE.mkQuaternion 0 0 0 1.

#[export] Instance engine : RAPIER.Engine := {|
  RAPIER.World := World;
  RAPIER.RigidBody := nat;
  RAPIER.Collider := nat;
  RAPIER.new_World := fun _ => mkWorld [] [];
  RAPIER.createRigidBody := fun d w =>
    (length (bodies w),
     mkWorld (bodies w ++ [mkBody (RAPIER.bodyType d) (RAPIER.desc_translation d) identity])
             (colliders w));
  RAPIER.createCollider := fun d b w =>
    (length (colliders w), mkWorld (bodies w) (colliders w ++ [(b, d, 0%float, 0.5%float)]));
  RAPIER.setRestitution := fun r c w =>
    mkWorld (bodies w) (alter (fun '(b, d, _, f) => (b, d, r, f)) c (colliders w));
  RAPIER.setFriction := fun f c w =>
    mkWorld (bodies w) (alter (fun '(b, d, r, _) => (b, d, r, f)) c (colliders w));
  RAPIER.step := fun w => mkWorld (fall <$> bodies w) (colliders w);
  RAPIER.translation := fun b w =>
    match bodies w !! b with Some x => body_translation x | None => origin end;
  RAPIER.rotation := fun b w =>
    match bodies w !! b with Some x => body_rotation x | None => identity end
|}.

(** The state after setup at time 0, with the estimate of the tracker set
    to [f]. *)
Definition appWithFps (f : JS.number) : App :=
  let a := setup 0 in
  {| scene := scene a;
     world := world a;
     fpsTracker := FPSTracker.mk f 0 0;
     cubes := cubes a;
     accumulator := accumulator a;
     fps := fps a;
     cubesAmount := cubesAmount a;
     calls := calls a |}.

(** [n] animation frames 16.6 ms apart, the first at 16.6 ms. *)
Definition steadyFrames (n : nat) : list Event :=
  (fun i => Frame 0.0166 (JS.of_Z (Z.of_nat i) * 16.6)) <$> seq 1 n.

End Falling.

(** ** The counting identity of the specification, read on the code's numbers

    "The number of physics steps taken across the sequence equals
    floor(total_accumulated / FIXED_STEP)" when no invocation reached the cap
    of 5 steps, the samples and the step size taken at their exact values. *)
Definition stepCountIdentity (dts : list JS.number) : Prop :=
  let ls := advances (fun u : unit => u) fixedTimestep tt 0%float dts in
  Forall (fun l => loop_steps l < 5) ls ->
  Z.of_nat (totalSteps ls) = Qfloor (Qsum (JS.toQ <$> dts) / JS.toQ fixedTimestep).

(** ** Reading a run of the callbacks *)

(** The times [performance.now()] returned in the frames of a run, in order. *)
Definition frameTimes (evs : list Event) : list JS.number :=
  evs ≫= (fun e => match e with Frame _ now => [now] | Spawn _ _ => [] end).

(** The samples [clock.getDelta()] returned in the frames of a run, in order. *)
Definition frameDeltas (evs : list Event) : list JS.number :=
  evs ≫= (fun e => match e with Frame dt _ => [dt] | Spawn _ _ => [] end).

(** The number of spawn ticks of a run. *)
Definition spawnTicksOf (evs : list Event) : nat :=
  length (evs ≫= (fun e => match e with Spawn _ _ => [e] | Frame _ _ => [] end)).

(** The number of animation frames of a run. *)
Definition frameCountOf (evs : list Event) : nat := length (frameTimes evs).

(** A frame inside the first measurement window of a tracker made at [t0]:
    the test [currentTime >= lastTime + 500] of [update] fails. *)
Definition inFirstWindow (t0 : JS.number) (e : Event) : Prop :=
  match e with
  | Frame _ now => (t0 + 500 <=? now)%float = false
  | Spawn _ _ => True
  end.

Section Calls.

Context {engine : RAPIER.Engine}.

Definition isRender (c : Call) : bool :=
  match c with CallRender _ => true | _ => false end.

Definition isSceneAdd (c : Call) : bool :=
  match c with CallSceneAdd _ => true | _ => false end.

Definition isCreateRigidBody (c : Call) : bool :=
  match c with CallCreateRigidBody _ => true | _ => false end.

Definition isCreateCollider (c : Call) : bool :=
  match c with CallCreateCollider _ => true | _ => false end.

(** The number of recorded calls of one kind. *)
Definition countCalls (kind : Call -> bool) (l : list Call) : nat :=
  length (List.filter kind l).

End Calls.

(** ** The effect of [App], the camera and the resize handler
    (App.tsx, lines 6-22, 43-71, 129 and 152) *)

Module Page.

(** [window.innerWidth] and [window.innerHeight]. *)
Record Window := mkWindow {
  innerWidth : JS.number;
  innerHeight : JS.number
}.

(** [class Camera]: the parameters of its [PerspectiveCamera] and where it
    stands.  The constructor also turns the camera by [rotateX(-0.7)]; the
    orientation, which needs sine and cosine, is not part of this record,
    and nothing below speaks of it. *)
Record Camera := mkCamera {
  field_of_view : JS.number;
  aspect : JS.number;
  near_clip : JS.number;
  far_clip : JS.number;
  camera_position : THREE.Vector3
}.

(** [new Camera()] in a window [win]. *)
Definition new_Camera (win : Window) : Camera :=
  {| field_of_view := 75;
     aspect := innerWidth win / innerHeight win;
     near_clip := 0.1;
     far_clip := 1000;
     camera_position := THREE.mkVector3 0 20 30 |}.

(** The camera and the size the renderer was last given by [setSize]. *)
Record Display := mkDisplay {
  camera : Camera;
  rendererSize : JS.number * JS.number
}.

(** The camera and the renderer as the setup makes them in a window [win]
    (App.tsx, lines 57-61). *)
Definition new_Display (win : Window) : Display :=
  {| camera := new_Camera win;
     rendererSize := (innerWidth win, innerHeight win) |}.

(** [handleResize()] (App.tsx, lines 66-70) in a window [win]. *)
Definition handleResize (win : Window) (d : Display) : Display :=
  {| camera :=
       {| field_of_view := field_of_view (camera d);
          aspect := innerWidth win / innerHeight win;
          near_clip := near_clip (camera d);
          far_clip := far_clip (camera d);
          camera_position := camera_position (camera d) |};
     rendererSize := (innerWidth win, innerHeight win) |}.

Section WithEngine.

Context {engine : RAPIER.Engine}.

(** What one run of the effect's body makes: the closure's variables, with
    the resize listener, the interval timer and the animation loop that it
    registers for them. *)
Record Instance := mkInstance {
  inst_app : App;
  inst_display : Display
}.

(** The component: the ref [finishedSetup] and what the effect has made. *)
Record Page := mkPage {
  finishedSetup : bool;
  instances : list Instance
}.

(** The component before its effect has run. *)
Definition newPage : Page := {| finishedSetup := false; instances := [] |}.

(** The effect (App.tsx, lines 49-153), run at time [now] in a window [win];
    [mounted] says whether [canvasMountRef.current] is set. *)
Definition effect (mounted : bool) (now : JS.number) (win : Window) (p : Page) : Page :=
  if negb mounted then p
  else if finishedSetup p then p
  else
    {| finishedSetup := true;
       instances := instances p ++
         [{| inst_app := setup now; inst_display := new_Display win |}] |}.

(** What happens to the page: React runs the effect, the window is resized,
    or a timer or an animation frame is due; a listener, a timer or a loop
    runs for every instance that registered one. *)
Inductive PageEvent :=
| RunEffect (mounted : bool) (now : JS.number) (win : Window)
| WindowResize (win : Window)
| Callback (e : Event).

Definition pageHandle (p : Page) (ev : PageEvent) : Page :=
  match ev with
  | RunEffect mounted now win => effect mounted now win p
  | WindowResize win =>
      {| finishedSetup := finishedSetup p;
         instances :=
           (fun i => mkInstance (inst_app i) (handleResize win (inst_display i)))
             <$> instances p |}
  | Callback e =>
      {| finishedSetup := finishedSetup p;
         instances :=
           (fun i => mkInstance (handle (inst_app i) e) (inst_display i))
             <$> instances p |}
  end.

Definition pageRun (evs : list PageEvent) (p : Page) : Page := foldl pageHandle p evs.

(** The callbacks among the events of a page. *)
Definition callbacks (evs : list PageEvent) : list Event :=
  evs ≫= (fun ev => match ev with Callback e => [e] | _ => [] end).

(** The windows of the resizes among the events of a page. *)
Definition resizes (evs : list PageEvent) : list Window :=
  evs ≫= (fun ev => match ev with WindowResize win => [win] | _ => [] end).

(** The window as the last resize left it, [win] when there was none. *)
Definition currentWindow (win : Window) (evs : list PageEvent) : Window :=
  default win (last (resizes evs)).

(** The effect never found the canvas mounted. *)
Definition neverMounted (evs : list PageEvent) : Prop :=
  forall mounted now win, RunEffect mounted now win ∈ evs -> mounted = false.

End WithEngine.

End Page.

(** Opens [setup]: the ground body, its collider and the worlds made on the
    way get names, and the record of the initial state is left. *)
Ltac open_setup :=
  unfold setup;
  destruct (RAPIER.createRigidBody _ _) as [? ?];
  destruct (RAPIER.createCollider _ _ _) as [? ?].

(** * Facts *)

(** ** Order and sign of binary64 sums and differences

    From the specification of the primitive operations ([FloatAxioms]):
    a sum of numbers that are not negative is not negative, a difference
    [x - y] with [0 < y <= x], [y] finite, is not negative, and the order is
    total away from NaN. *)

Section FloatOrder.

Lemma SFleb_zero_nonneg x : SFleb (S754_zero false) x = JS.SFnonneg x.
Proof. destruct x as [s|s| |s m e]; try destruct s; reflexivity. Qed.

Lemma shr_1_nonneg mrs : (0 <= shr_m mrs -> 0 <= shr_m (shr_1 mrs))%Z.
Proof.
  destruct mrs as [m r s]; simpl; intros Hm.
  destruct m as [|p|p]; simpl; try lia; destruct p; simpl; lia.
Qed.

Lemma iter_shr_1_nonneg p : forall mrs,
  (0 <= shr_m mrs -> 0 <= shr_m (SpecFloat.iter_pos shr_1 p mrs))%Z.
Proof.
  induction p as [p IH|p IH|]; simpl; intros mrs Hm.
  - apply IH, IH, shr_1_nonneg, Hm.
  - apply IH, IH, Hm.
  - apply shr_1_nonneg, Hm.
Qed.

Lemma shr_fexp_nonneg m e l :
  (0 <= m -> 0 <= shr_m (fst (shr_fexp prec emax m e l)))%Z.
Proof.
  intros Hm. unfold shr_fexp, shr.
  assert (H0 : (0 <= shr_m (shr_record_of_loc m l))%Z)
    by (destruct l as [|[]]; exact Hm).
  destruct (fexp prec emax (Zdigits2 m + e) - e)%Z; simpl; auto.
  apply iter_shr_1_nonneg, H0.
Qed.

Lemma round_nearest_even_nonneg m l : (0 <= m -> 0 <= round_nearest_even m l)%Z.
Proof.
  intros Hm. destruct l as [|[]]; simpl; try lia.
  destruct (Z.even m); lia.
Qed.

Lemma binary_round_aux_nonneg m e l :
  (0 <= m)%Z -> JS.SFnonneg (binary_round_aux prec emax false m e l) = true.
Proof.
  intros Hm. unfold binary_round_aux.
  pose proof (shr_fexp_nonneg m e l Hm) as H1.
  destruct (shr_fexp prec emax m e l) as [mrs' e']. simpl in H1.
  pose proof (shr_fexp_nonneg _ e' loc_Exact
                (round_nearest_even_nonneg _ (loc_of_shr_record mrs') H1)) as H2.
  destruct (shr_fexp prec emax _ e' loc_Exact) as [mrs'' e'']. simpl in H2.
  destruct (shr_m mrs'') as [|p|p]; try reflexivity; try lia.
  destruct (e'' <=? emax - prec)%Z; reflexivity.
Qed.

Lemma binary_normalize_nonneg m e :
  (0 <= m)%Z -> JS.SFnonneg (binary_normalize prec emax m e false) = true.
Proof.
  intros Hm. destruct m as [|p|p]; try reflexivity; try lia.
  simpl. unfold binary_round.
  destruct (shl_align p e _) as [mz ez]. apply binary_round_aux_nonneg. lia.
Qed.

Lemma SFadd_nonneg x y :
  JS.SFnonneg x = true -> JS.SFnonneg y = true -> JS.SFnonneg (SFadd prec emax x y) = true.
Proof.
  intros Hx Hy.
  destruct x as [sx|sx| |sx mx ex]; try discriminate;
    destruct y as [sy|sy| |sy my ey]; try discriminate;
    try (destruct sx, sy; simpl in *; congruence).
  destruct sx, sy; try discriminate.
  unfold SFadd, cond_Zopp. apply binary_normalize_nonneg. lia.
Qed.

Lemma digits2_pos_size p : digits2_pos p = Pos.size p.
Proof. induction p; simpl; congruence. Qed.

Lemma iter_xO_pow m d : Z.pos (Pos.iter xO m d) = (Z.pos m * 2 ^ Z.pos d)%Z.
Proof.
  induction d as [|d IH] using Pos.peano_ind.
  - simpl. lia.
  - rewrite Pos.iter_succ, Pos2Z.inj_succ, Z.pow_succ_r by lia.
    rewrite Pos2Z.inj_xO, IH. lia.
Qed.

Lemma shl_align_fst m e e' :
  (e' <= e)%Z -> Z.pos (fst (shl_align m e e')) = (Z.pos m * 2 ^ (e - e'))%Z.
Proof.
  intros He. unfold shl_align.
  destruct (e' - e)%Z as [|d|d] eqn:Hd; try lia; simpl.
  - replace (e - e')%Z with 0%Z by lia. simpl. lia.
  - rewrite iter_xO_pow. replace (e - e')%Z with (Z.pos d) by lia. reflexivity.
Qed.

(** The mantissa of a valid finite value has at most [prec] digits, and
    exactly [prec] above the smallest exponent. *)
Lemma bounded_digits m e :
  bounded prec emax m e = true ->
  (emin <= e /\ Z.pos m < 2 ^ prec /\ (emin < e -> 2 ^ prec <= 2 * Z.pos m))%Z.
Proof.
  unfold bounded, canonical_mantissa, fexp. intros H.
  apply andb_prop in H as [H _]. apply Z.eqb_eq in H.
  rewrite digits2_pos_size in H.
  pose proof (Pos.size_gt m) as Hgt. pose proof (Pos.size_le m) as Hle.
  apply Pos2Z.pos_lt_pos in Hgt. apply Pos2Z.pos_le_pos in Hle.
  rewrite Pos2Z.inj_pow in Hgt, Hle. rewrite Pos2Z.inj_xO in Hle.
  change (Z.pos 2) with 2%Z in *.
  assert (Hs : (Z.pos (Pos.size m) <= prec)%Z) by lia.
  repeat split.
  - lia.
  - eapply Z.lt_le_trans; [exact Hgt|]. apply Z.pow_le_mono_r; lia.
  - intros He. replace prec with (Z.pos (Pos.size m)) by lia. exact Hle.
Qed.

Lemma SFsub_nonneg x my ey :
  valid_binary x = true -> bounded prec emax my ey = true ->
  SFleb (S754_finite false my ey) x = true ->
  JS.SFnonneg (SFsub prec emax x (S754_finite false my ey)) = true.
Proof.
  intros Vx Vy Hle.
  destruct x as [sx|sx| |sx mx ex]; simpl in Hle; try discriminate.
  - destruct sx; [discriminate|reflexivity].
  - destruct sx; [discriminate|].
    unfold SFsub, cond_Zopp. apply binary_normalize_nonneg.
    simpl in Vx. apply bounded_digits in Vx as (Hx1 & Hx2 & Hx3).
    apply bounded_digits in Vy as (Hy1 & Hy2 & Hy3).
    unfold SFleb, SFcompare in Hle.
    destruct (Z.compare_spec ey ex) as [He|He|He]; try discriminate.
    + subst ex. rewrite Z.min_id, !shl_align_fst, Z.sub_diag by lia.
      rewrite Pos.compare_cont_spec in Hle. simpl in Hle.
      destruct (Pos.compare_spec my mx); try discriminate; lia.
    + rewrite Z.min_r, !shl_align_fst, Z.sub_diag by lia.
      assert (2 <= 2 ^ (ex - ey))%Z.
      { change 2%Z with (2 ^ 1)%Z at 1. apply Z.pow_le_mono_r; lia. }
      nia.
Qed.

(** On values that are not NaN the order is total. *)
Lemma SFleb_false_ltb x y :
  x <> S754_nan -> y <> S754_nan -> SFleb x y = false -> SFltb y x = true.
Proof.
  intros Hx Hy. unfold SFleb, SFltb.
  destruct x as [sx|sx| |sx mx ex], y as [sy|sy| |sy my ey]; try congruence;
    simpl; try (destruct sx; try destruct sy; simpl; congruence);
    try (destruct sy; simpl; congruence).
  destruct sx, sy; simpl; try congruence;
    rewrite (Z.compare_antisym ex ey);
    destruct (ex ?= ey)%Z; simpl; try congruence;
    rewrite !Pos.compare_cont_spec; simpl;
    rewrite (Pos.compare_antisym mx my);
    destruct (mx ?= my)%positive; simpl; congruence.
Qed.

Lemma SFleb_ltb_false x y : SFleb x y = true -> SFltb y x = false.
Proof.
  unfold SFleb, SFltb.
  destruct x as [sx|sx| |sx mx ex], y as [sy|sy| |sy my ey]; simpl;
    try congruence; try (destruct sx; try destruct sy; simpl; congruence);
    try (destruct sy; simpl; congruence).
  destruct sx, sy; simpl; try congruence;
    rewrite (Z.compare_antisym ex ey);
    destruct (ex ?= ey)%Z; simpl; try congruence;
    rewrite !Pos.compare_cont_spec; simpl;
    rewrite (Pos.compare_antisym mx my);
    destruct (mx ?= my)%positive; simpl; congruence.
Qed.

(** The same on primitive floats. *)

Local Open Scope float_scope.

Lemma float_nonneg_spec x : (0 <=? x) = JS.SFnonneg (Prim2SF x).
Proof. rewrite leb_spec. apply SFleb_zero_nonneg. Qed.

Lemma float_add_nonneg x y : (0 <=? x) = true -> (0 <=? y) = true -> (0 <=? x + y) = true.
Proof. rewrite !float_nonneg_spec, add_spec. apply SFadd_nonneg. Qed.

Lemma float_sub_nonneg x y :
  (0 <? y) = true -> (y <? infinity) = true -> (y <=? x) = true ->
  (0 <=? x - y) = true.
Proof.
  rewrite !ltb_spec, leb_spec, float_nonneg_spec, sub_spec. intros Hy Hfin Hle.
  change (Prim2SF 0) with (S754_zero false) in Hy.
  change (Prim2SF infinity) with (S754_infinity false) in Hfin.
  pose proof (Prim2SF_valid y) as Vy. pose proof (Prim2SF_valid x) as Vx.
  destruct (Prim2SF y) as [sy|sy| |sy my ey]; simpl in Hy, Hfin; try discriminate;
    destruct sy; try discriminate.
  apply SFsub_nonneg; assumption.
Qed.

Lemma float_leb_false_ltb x y :
  (0 <=? x) = true -> (0 <=? y) = true -> (x <=? y) = false -> (y <? x) = true.
Proof.
  rewrite !float_nonneg_spec, leb_spec, ltb_spec. intros Hx Hy.
  apply SFleb_false_ltb; intros E; rewrite E in *; discriminate.
Qed.


Lemma float_leb_ltb_false x y : (x <=? y) = true -> (y <? x) = false.
Proof. rewrite leb_spec, ltb_spec. apply SFleb_ltb_false. Qed.

End FloatOrder.

(** ** [Math.round] on exact values *)

Section MathRound.

Lemma Qfloor_unique (y : Q) (n : Z) :
  (inject_Z n <= y)%Q -> (y < inject_Z (n + 1))%Q -> Qfloor y = n.
Proof.
  intros Hl Hu.
  pose proof (Qfloor_le y) as Fl. pose proof (Qlt_floor y) as Fu.
  assert (A : (inject_Z (Qfloor y) < inject_Z (n + 1))%Q) by (eapply Qle_lt_trans; eassumption).
  assert (B : (inject_Z n < inject_Z (Qfloor y + 1))%Q) by (eapply Qle_lt_trans; eassumption).
  rewrite <- Zlt_Qlt in A, B. lia.
Qed.

(** Half-up rounding of a fraction with a positive denominator. *)
Lemma Qfloor_div_half (N D : Z) :
  (0 < D)%Z -> Qfloor (inject_Z N / inject_Z D) = (N / D)%Z.
Proof.
  intros HD.
  assert (HDq : (0 < inject_Z D)%Q) by (rewrite (Zlt_Qlt 0 D) in HD; exact HD).
  pose proof (Z.mul_div_le N D HD) as Hl.
  pose proof (Z.mul_succ_div_gt N D HD) as Hu.
  apply Qfloor_unique.
  - apply Qle_shift_div_l; [exact HDq|]. rewrite <- inject_Z_mult, <- Zle_Qle. lia.
  - apply Qlt_shift_div_r; [exact HDq|]. rewrite <- inject_Z_mult, <- Zlt_Qlt. lia.
Qed.

Lemma Qpower_2_neg (k : Z) : (0 <= k)%Z -> (Qpower 2 (- k) == / inject_Z (2 ^ k))%Q.
Proof.
  intros Hk. rewrite Qpower_opp. apply Qinv_comp.
  rewrite Zpower_Qpower by exact Hk. reflexivity.
Qed.

Lemma digits2_pos_iter_xO (p k : positive) :
  digits2_pos (Pos.iter xO p k) = (digits2_pos p + k)%positive.
Proof.
  induction k as [|k IH] using Pos.peano_ind.
  - simpl. lia.
  - rewrite Pos.iter_succ. simpl. rewrite IH. lia.
Qed.

(** A mantissa of 53 digits with an exponent in range is kept as it is. *)
Lemma binary_round_aux_exact (s : bool) (mz : positive) (ez : Z) :
  Z.pos (digits2_pos mz) = 53%Z -> (-1074 <= ez <= 971)%Z ->
  binary_round_aux prec emax s (Z.pos mz) ez loc_Exact = S754_finite s mz ez.
Proof.
  intros Hd He.
  assert (Hshr : forall m : positive, Z.pos (digits2_pos m) = 53%Z ->
            shr_fexp prec emax (Z.pos m) ez loc_Exact =
            ({| shr_m := Z.pos m; shr_r := false; shr_s := false |}, ez)).
  { intros m Hm. unfold shr_fexp, Zdigits2. rewrite Hm.
    replace (fexp prec emax (53 + ez) - ez)%Z with 0%Z; [reflexivity|].
    unfold fexp, SpecFloat.emin, prec, emax. lia. }
  unfold binary_round_aux. rewrite (Hshr mz Hd). cbn [shr_m loc_of_shr_record round_nearest_even].
  rewrite (Hshr mz Hd). cbn [shr_m].
  replace (ez <=? emax - prec)%Z with true; [reflexivity|].
  symmetry. apply Z.leb_le. unfold emax, prec. lia.
Qed.

(** The double of an integer below 2^53 in absolute value: its digits,
    shifted up to 53 of them. *)
Lemma binary_round_small (s : bool) (p : positive) :
  (Z.pos p < 2 ^ 53)%Z ->
  exists (mz : positive) (ez : Z),
    binary_round prec emax s p 0 = S754_finite s mz ez /\
    Z.pos (digits2_pos mz) = 53%Z /\ (-52 <= ez <= 0)%Z /\
    Z.pos mz = (Z.pos p * 2 ^ (- ez))%Z.
Proof.
  intros Hp.
  assert (Hd : (1 <= Z.pos (digits2_pos p) <= 53)%Z).
  { split; [lia|]. rewrite digits2_pos_size.
    pose proof (Pos.size_le p) as Hle. apply Pos2Z.pos_le_pos in Hle.
    rewrite Pos2Z.inj_pow in Hle. change (Z.pos 2) with 2%Z in Hle.
    change (Z.pos p~0) with (2 * Z.pos p)%Z in Hle.
    assert (Hlt : (2 ^ Z.pos (Pos.size p) < 2 ^ 54)%Z).
    { change (2 ^ 54)%Z with (2 * 2 ^ 53)%Z. lia. }
    apply Z.pow_lt_mono_r_iff in Hlt; lia. }
  unfold binary_round.
  replace (fexp prec emax (Z.pos (digits2_pos p) + 0))
    with (Z.pos (digits2_pos p) - 53)%Z
    by (unfold fexp, SpecFloat.emin, prec, emax; lia).
  unfold shl_align.
  destruct (Z.pos (digits2_pos p) - 53 - 0)%Z as [|d|d] eqn:Hsub; try lia.
  - exists p, 0%Z. rewrite binary_round_aux_exact by lia.
    repeat split; try lia.
  - exists (Pos.iter xO p d), (Z.pos (digits2_pos p) - 53)%Z.
    assert (Hd' : Z.pos (digits2_pos (Pos.iter xO p d)) = 53%Z).
    { rewrite digits2_pos_iter_xO. lia. }
    rewrite binary_round_aux_exact by lia.
    repeat split; try lia.
    rewrite iter_xO_pow. f_equal. f_equal. lia.
Qed.

Lemma toQ_finite (x : JS.number) s m e :
  Prim2SF x = S754_finite s m e ->
  JS.toQ x = (inject_Z (cond_Zopp s (Z.pos m)) * Qpower 2 e)%Q.
Proof. intros H. unfold JS.toQ. rewrite H. reflexivity. Qed.

(** [of_Z] is exact below 2^53. *)
Lemma toQ_of_Z (n : Z) : (Z.abs n < 2 ^ 53)%Z -> (JS.toQ (JS.of_Z n) == inject_Z n)%Q.
Proof.
  intros Hn. unfold JS.of_Z.
  destruct n as [|p|p]; [reflexivity| |];
    simpl binary_normalize; simpl Z.abs in Hn;
    [destruct (binary_round_small false p Hn) as (mz & ez & E & Hd & He & Hm)
    |destruct (binary_round_small true p Hn) as (mz & ez & E & Hd & He & Hm)];
    rewrite E;
    (erewrite toQ_finite;
     [|apply Prim2SF_SF2Prim; simpl; unfold bounded, canonical_mantissa;
       rewrite Hd; apply andb_true_intro; split;
       [apply Z.eqb_eq; unfold fexp, SpecFloat.emin, prec, emax; lia
       |apply Z.leb_le; unfold emax, prec; lia]]);
    replace ez with (- (- ez))%Z by lia;
    rewrite Qpower_2_neg by lia; simpl cond_Zopp;
    [rewrite Hm|rewrite <- Pos2Z.opp_pos, Hm];
    rewrite ?inject_Z_opp, inject_Z_mult; field;
    intros E0; apply (proj1 (inject_Z_injective (2 ^ (- ez)) 0)) in E0;
    pose proof (Z.pow_pos_nonneg 2 (- ez)); lia.
Qed.

Lemma Qfloor_Z_half (z : Z) : Qfloor (inject_Z z + (1 # 2)) = z.
Proof.
  apply Qfloor_unique.
  - rewrite <- (Qplus_0_r (inject_Z z)) at 1. apply Qplus_le_r. discriminate.
  - rewrite inject_Z_plus. apply Qplus_lt_r. reflexivity.
Qed.

(** [Math.round] of a finite number is [floor (x + 1/2)], on the exact
    values. *)
Lemma Math_round_spec (x : JS.number) :
  JS.isFinite x = true ->
  (JS.toQ (JS.Math_round x) == inject_Z (Qfloor (JS.toQ x + (1 # 2))))%Q.
Proof.
  unfold JS.isFinite. intros Hfin.
  pose proof (Prim2SF_valid x) as Hv.
  destruct (Prim2SF x) as [s0|s0| |s m e] eqn:E; try discriminate.
  - unfold JS.Math_round. rewrite E. unfold JS.toQ. rewrite E. reflexivity.
  - simpl in Hv. apply bounded_digits in Hv as (_ & Hm & _).
    unfold JS.Math_round. rewrite E.
    destruct (0 <=? e)%Z eqn:He.
    + apply Z.leb_le in He. rewrite (toQ_finite x s m e E).
      assert (Hz : (inject_Z (cond_Zopp s (Z.pos m)) * Qpower 2 e ==
                    inject_Z (cond_Zopp s (Z.pos m) * 2 ^ e))%Q).
      { rewrite inject_Z_mult, Zpower_Qpower by exact He. reflexivity. }
      rewrite Hz at 2. rewrite Qfloor_Z_half. exact Hz.
    + apply Z.leb_gt in He. cbv zeta.
      set (k := (- e)%Z). assert (Hk : (0 < k)%Z) by (unfold k; lia).
      set (N := (cond_Zopp s (2 * Z.pos m) + 2 ^ k)%Z).
      set (D := (2 ^ (k + 1))%Z).
      assert (HP : (0 < 2 ^ k)%Z) by (apply Z.pow_pos_nonneg; lia).
      assert (HD : D = (2 * 2 ^ k)%Z) by (unfold D; rewrite Z.add_1_r, Z.pow_succ_r by lia; reflexivity).
      assert (Hx : (JS.toQ x + (1 # 2) == inject_Z N / inject_Z D)%Q).
      { rewrite (toQ_finite x s m e E). replace e with (- k)%Z by (unfold k; lia).
        rewrite Qpower_2_neg by lia. unfold N. rewrite HD.
        rewrite inject_Z_plus, !inject_Z_mult.
        assert (Hs : inject_Z (cond_Zopp s (2 * Z.pos m)) ==
                     2 * inject_Z (cond_Zopp s (Z.pos m))).
        { destruct s; simpl cond_Zopp.
          - rewrite <- Z.mul_opp_r, inject_Z_mult. reflexivity.
          - rewrite inject_Z_mult. reflexivity. }
        rewrite Hs. change (inject_Z 2) with (2%Q). field.
        intros E0. apply (proj1 (inject_Z_injective (2 ^ k) 0)) in E0. lia. }
      assert (Hn : Qfloor (JS.toQ x + (1 # 2)) = (N / D)%Z).
      { rewrite Hx. apply Qfloor_div_half. lia. }
      rewrite Hn.
      destruct (N / D =? 0)%Z eqn:H0.
      * apply Z.eqb_eq in H0. rewrite H0. destruct s; reflexivity.
      * apply toQ_of_Z.
        assert (HDpos : (0 < D)%Z) by lia.
        pose proof (Z.mul_div_le N D HDpos) as Hl.
        pose proof (Z.mul_succ_div_gt N D HDpos) as Hu.
        change (2 ^ prec)%Z with 9007199254740992%Z in Hm.
        assert (HN : (- 18014398509481984 < N - 2 ^ k < 18014398509481984)%Z).
        { unfold N, cond_Zopp. destruct s; lia. }
        assert (HD4 : (4 <= D)%Z).
        { rewrite HD. assert (2 ^ 1 <= 2 ^ k)%Z by (apply Z.pow_le_mono_r; lia). lia. }
        change (2 ^ 53)%Z with 9007199254740992%Z.
        nia.
Qed.

Lemma Math_round_nonfinite (x : JS.number) :
  JS.isFinite x = false -> JS.Math_round x = x.
Proof.
  unfold JS.isFinite, JS.Math_round. destruct (Prim2SF x); try discriminate; reflexivity.
Qed.

End MathRound.

(** ** Rounding of a sum and the order of exact values

    [binary_round_aux] followed through its two shifts, for a positive
    number of at least 53 digits: the result is a neighbour of the number on
    the grid of the 53-digit mantissas.  Hence a sum [x + 500] of doubles is
    not above any double the exact sum is not above, and is within its
    [2 ^ -52]th part of the exact sum. *)

Section RoundingOrder.

Lemma iter_pos_iter {A : Type} (f : A -> A) (p : positive) :
  forall x, SpecFloat.iter_pos f p x = Pos.iter f x p.
Proof.
  induction p as [p IH|p IH|]; intros x; simpl.
  - rewrite !IH, <- !Pos.iter_swap. reflexivity.
  - rewrite !IH. reflexivity.
  - reflexivity.
Qed.

(** One shift to the right: the mantissa is halved, the bit that leaves it
    becomes the round bit and the sticky bit collects the earlier ones.  In
    terms of the number [M] that is shifted: after [k] shifts the mantissa
    [m] is the quotient of [M] by [2 ^ k], and round and sticky bit are both
    clear exactly when the division left no remainder. *)
Lemma shr_1_inv (M k : Z) (mrs : shr_record) :
  (0 <= k)%Z ->
  (0 <= shr_m mrs)%Z /\ (M < (shr_m mrs + 1) * 2 ^ k)%Z /\
  (if shr_r mrs || shr_s mrs then (shr_m mrs * 2 ^ k < M)%Z
   else (shr_m mrs * 2 ^ k = M)%Z) ->
  (0 <= shr_m (shr_1 mrs))%Z /\ (M < (shr_m (shr_1 mrs) + 1) * 2 ^ (k + 1))%Z /\
  (if shr_r (shr_1 mrs) || shr_s (shr_1 mrs) then (shr_m (shr_1 mrs) * 2 ^ (k + 1) < M)%Z
   else (shr_m (shr_1 mrs) * 2 ^ (k + 1) = M)%Z).
Proof.
  intros Hk. rewrite Z.pow_add_r, Z.pow_1_r by lia.
  assert (HP : (0 < 2 ^ k)%Z) by (apply Z.pow_pos_nonneg; lia).
  set (P := (2 ^ k)%Z) in *.
  destruct mrs as [m r s]. simpl.
  destruct m as [|[p|p|]|p]; simpl; intros (H0 & Hu & Hf); try lia;
    try change (Z.pos p~1) with (2 * Z.pos p + 1)%Z in *;
    try change (Z.pos p~0) with (2 * Z.pos p)%Z in *;
    (split; [lia|]); (split; [nia|]);
    destruct r, s; simpl in *; nia.
Qed.

Lemma iter_shr_1_inv (M : Z) (p : positive) :
  (0 <= M)%Z ->
  let mrs := Pos.iter shr_1 {| shr_m := M; shr_r := false; shr_s := false |} p in
  (0 <= shr_m mrs)%Z /\ (M < (shr_m mrs + 1) * 2 ^ Z.pos p)%Z /\
  (if shr_r mrs || shr_s mrs then (shr_m mrs * 2 ^ Z.pos p < M)%Z
   else (shr_m mrs * 2 ^ Z.pos p = M)%Z).
Proof.
  intros HM. cbv zeta.
  assert (H0 : let mrs := {| shr_m := M; shr_r := false; shr_s := false |} in
               (0 <= shr_m mrs)%Z /\ (M < (shr_m mrs + 1) * 2 ^ 0)%Z /\
               (if shr_r mrs || shr_s mrs then (shr_m mrs * 2 ^ 0 < M)%Z
                else (shr_m mrs * 2 ^ 0 = M)%Z)).
  { simpl. lia. }
  induction p as [|p IH] using Pos.peano_ind.
  - apply (shr_1_inv M 0 _ (Z.le_refl 0)) in H0. exact H0.
  - rewrite Pos.iter_succ, Pos2Z.inj_succ. unfold Z.succ.
    apply shr_1_inv; [lia|exact IH].
Qed.


Lemma digits2_pos_bounds (p : positive) :
  (2 ^ (Z.pos (digits2_pos p) - 1) <= Z.pos p < 2 ^ Z.pos (digits2_pos p))%Z.
Proof.
  rewrite digits2_pos_size.
  pose proof (Pos.size_gt p) as Hgt. pose proof (Pos.size_le p) as Hle.
  apply Pos2Z.pos_lt_pos in Hgt. apply Pos2Z.pos_le_pos in Hle.
  rewrite Pos2Z.inj_pow in Hgt, Hle.
  change (Z.pos 2) with 2%Z in *. change (Z.pos p~0) with (2 * Z.pos p)%Z in Hle.
  split; [|exact Hgt]. clear Hgt.
  replace (Z.pos (Pos.size p)) with (Z.pos (Pos.size p) - 1 + 1)%Z in Hle by lia.
  rewrite Z.pow_add_r, Z.pow_1_r in Hle by lia.
  generalize dependent (2 ^ (Z.pos (Pos.size p) - 1))%Z. intros P HP. lia.
Qed.

Lemma digits2_pos_unique (p : positive) (k : Z) :
  (2 ^ (k - 1) <= Z.pos p < 2 ^ k)%Z -> Z.pos (digits2_pos p) = k.
Proof.
  intros [Hl Hu]. pose proof (digits2_pos_bounds p) as [Dl Du].
  set (d := Z.pos (digits2_pos p)) in *.
  assert (Hk : (0 < k)%Z).
  { destruct (Z.lt_trichotomy 0 k) as [Hk|[<-|Hk]]; [exact Hk| |].
    - rewrite Z.pow_0_r in Hu. lia.
    - rewrite Z.pow_neg_r in Hu by exact Hk. lia. }
  destruct (Z.lt_trichotomy d k) as [Hlt|[Heq|Hgt]]; [|exact Heq|].
  - assert (2 ^ d <= 2 ^ (k - 1))%Z by (apply Z.pow_le_mono_r; lia). lia.
  - assert (2 ^ k <= 2 ^ (d - 1))%Z by (apply Z.pow_le_mono_r; lia). lia.
Qed.

(** The first shift of [binary_round_aux] on a number of at least 53 digits:
    it drops the [n] digits beyond the 53rd. *)
Lemma shr_fexp_spec (M : positive) (ez : Z) :
  (2 ^ 52 <= Z.pos M)%Z -> (-1074 <= ez)%Z ->
  exists mrs n,
    shr_fexp prec emax (Z.pos M) ez loc_Exact = (mrs, (ez + n)%Z) /\ (0 <= n)%Z /\
    (2 ^ 52 <= shr_m mrs < 2 ^ 53)%Z /\
    (Z.pos M < (shr_m mrs + 1) * 2 ^ n)%Z /\
    (if shr_r mrs || shr_s mrs then (shr_m mrs * 2 ^ n < Z.pos M)%Z
     else (shr_m mrs * 2 ^ n = Z.pos M)%Z).
Proof.
  intros HM He.
  pose proof (digits2_pos_bounds M) as [Dl Du].
  set (d := Z.pos (digits2_pos M)) in *.
  assert (Hd : (53 <= d)%Z).
  { destruct (Z.le_gt_cases 53 d) as [|Hlt]; [assumption|].
    assert (2 ^ d <= 2 ^ 52)%Z by (apply Z.pow_le_mono_r; lia). lia. }
  unfold shr_fexp, Zdigits2, shr_record_of_loc. fold d.
  replace (fexp prec emax (d + ez) - ez)%Z with (d - 53)%Z
    by (unfold fexp, SpecFloat.emin, prec, emax; lia).
  assert (Hpow : forall n, (0 <= n)%Z -> (2 ^ (52 + n) = 2 ^ 52 * 2 ^ n)%Z)
    by (intros n Hn; apply Z.pow_add_r; lia).
  unfold shr. destruct (d - 53)%Z as [|p|p] eqn:Hn; try lia.
  - exists {| shr_m := Z.pos M; shr_r := false; shr_s := false |}, 0%Z.
    rewrite Z.add_0_r. replace d with 53%Z in Du by lia.
    simpl shr_m. simpl orb. cbv iota. repeat split; lia.
  - exists (SpecFloat.iter_pos shr_1 p {| shr_m := Z.pos M; shr_r := false; shr_s := false |}),
           (Z.pos p).
    rewrite iter_pos_iter.
    destruct (iter_shr_1_inv (Z.pos M) p) as (H0 & Hu & Hf); [lia|].
    set (mrs := Pos.iter shr_1 _ p) in *.
    assert (HP : (0 < 2 ^ Z.pos p)%Z) by (apply Z.pow_pos_nonneg; lia).
    assert (Hle : (shr_m mrs * 2 ^ Z.pos p <= Z.pos M)%Z)
      by (destruct (shr_r mrs || shr_s mrs); lia).
    replace d with (53 + Z.pos p)%Z in Du by lia.
    replace (d - 1)%Z with (52 + Z.pos p)%Z in Dl by lia.
    rewrite Z.pow_add_r in Du, Dl by lia.
    repeat split; try lia; try assumption; nia.
Qed.

Lemma round_nearest_even_cases (m : Z) (mrs : shr_record) :
  shr_m mrs = m ->
  round_nearest_even m (loc_of_shr_record mrs) = m \/
  (round_nearest_even m (loc_of_shr_record mrs) = (m + 1)%Z /\
   shr_r mrs || shr_s mrs = true).
Proof.
  intros <-. destruct mrs as [m r s]. simpl.
  destruct r, s; simpl; auto. destruct (Z.even m); auto.
Qed.

(** Rounding a positive number [M * 2 ^ ez] of at least 53 digits: the result
    is [m2 * 2 ^ (ez + n)], a neighbour of [M * 2 ^ ez] among the multiples
    of [2 ^ (ez + n)], [n] being the number of digits dropped; it is held as
    a mantissa of 53 digits, or is infinite when the exponent is too
    large. *)
Lemma binary_round_aux_spec (M : positive) (ez : Z) :
  (2 ^ 52 <= Z.pos M)%Z -> (-1074 <= ez)%Z ->
  exists (m1 : positive) (e1 n m2 : Z),
    binary_round_aux prec emax false (Z.pos M) ez loc_Exact =
      (if (e1 <=? 971)%Z then S754_finite false m1 e1 else S754_infinity false) /\
    (2 ^ 52 <= Z.pos m1 < 2 ^ 53)%Z /\
    (0 <= n)%Z /\ (ez + n <= e1)%Z /\
    (Z.pos m1 * 2 ^ (e1 - ez) = m2 * 2 ^ n)%Z /\
    (2 ^ 52 * 2 ^ n <= Z.pos M)%Z /\
    (Z.pos M - 2 ^ n < m2 * 2 ^ n < Z.pos M + 2 ^ n)%Z.
Proof.
  intros HM He.
  destruct (shr_fexp_spec M ez HM He) as (mrs & n & E1 & Hn & Hm & Hu & Hf).
  unfold binary_round_aux. rewrite E1.
  assert (HP : (0 < 2 ^ n)%Z) by (apply Z.pow_pos_nonneg; lia).
  assert (Hle : (shr_m mrs * 2 ^ n <= Z.pos M)%Z)
    by (destruct (shr_r mrs || shr_s mrs); lia).
  set (m2 := round_nearest_even (shr_m mrs) (loc_of_shr_record mrs)).
  assert (H2 : (shr_m mrs <= m2 <= shr_m mrs + 1)%Z /\
               (Z.pos M - 2 ^ n < m2 * 2 ^ n < Z.pos M + 2 ^ n)%Z).
  { destruct (round_nearest_even_cases (shr_m mrs) mrs eq_refl) as [E|[E Ef]];
      fold m2 in E; rewrite E.
    - split; [lia|]. split; nia.
    - rewrite Ef in Hf. split; [lia|]. split; nia. }
  destruct H2 as [H2 H2'].
  change (2 ^ 52)%Z with 4503599627370496%Z in *.
  change (2 ^ 53)%Z with 9007199254740992%Z in *.
  destruct (Z.eq_dec m2 9007199254740992%Z) as [Hc|Hc].
  - (* the mantissa has grown to 54 digits: one more shift *)
    exists 4503599627370496%positive, (ez + n + 1)%Z, n, m2.
    rewrite Hc. unfold shr_fexp.
    change (Zdigits2 9007199254740992) with 54%Z.
    replace (fexp prec emax (54 + (ez + n)) - (ez + n))%Z with 1%Z
      by (unfold fexp, SpecFloat.emin, prec, emax; lia).
    change (shr (shr_record_of_loc 9007199254740992 loc_Exact) (ez + n) 1)
      with ({| shr_m := 4503599627370496; shr_r := false; shr_s := false |},
            (ez + n + 1)%Z).
    cbn [shr_m]. change (emax - prec)%Z with 971%Z.
    replace (ez + n + 1 - ez)%Z with (n + 1)%Z by lia.
    rewrite Z.pow_add_r, Z.pow_1_r by lia.
    repeat split; try lia; nia.
  - destruct m2 as [|q|q] eqn:Eq; try lia.
    exists q, (ez + n)%Z, n, (Z.pos q).
    assert (Hq : Z.pos (digits2_pos q) = 53%Z).
    { apply digits2_pos_unique.
      change (2 ^ (53 - 1))%Z with 4503599627370496%Z.
      change (2 ^ 53)%Z with 9007199254740992%Z. lia. }
    unfold shr_fexp, Zdigits2. rewrite Hq.
    replace (fexp prec emax (53 + (ez + n)) - (ez + n))%Z with 0%Z
      by (unfold fexp, SpecFloat.emin, prec, emax; lia).
    cbn [shr shr_record_of_loc shr_m]. change (emax - prec)%Z with 971%Z.
    replace (ez + n - ez)%Z with n by lia.
    repeat split; try lia; nia.
Qed.


Lemma binary_round_large (M : positive) (ez : Z) :
  (2 ^ 52 <= Z.pos M)%Z -> (-1074 <= ez)%Z ->
  binary_round prec emax false M ez =
  binary_round_aux prec emax false (Z.pos M) ez loc_Exact.
Proof.
  intros HM He.
  pose proof (digits2_pos_bounds M) as [Dl Du].
  set (d := Z.pos (digits2_pos M)) in *.
  assert (Hd : (53 <= d)%Z).
  { destruct (Z.le_gt_cases 53 d) as [|Hlt]; [assumption|].
    assert (2 ^ d <= 2 ^ 52)%Z by (apply Z.pow_le_mono_r; lia). lia. }
  unfold binary_round. fold d.
  replace (fexp prec emax (d + ez)) with (d + ez - 53)%Z
    by (unfold fexp, SpecFloat.emin, prec, emax; lia).
  unfold shl_align. destruct (d + ez - 53 - ez)%Z eqn:E; try lia; reflexivity.
Qed.

(** A representable number that is not below [S] is not below the
    neighbour [m2 * 2 ^ g] that [S] is rounded to. *)
Lemma round_le_representable (S m2 g my b : Z) :
  (0 <= g)%Z -> (0 <= b)%Z -> (0 < my < 2 ^ 53)%Z ->
  (2 ^ 52 * 2 ^ g <= S)%Z -> (m2 * 2 ^ g < S + 2 ^ g)%Z ->
  (S <= my * 2 ^ b)%Z ->
  (m2 * 2 ^ g <= my * 2 ^ b)%Z.
Proof.
  intros Hg Hb Hmy HS Hm2 Hle.
  assert (HPg : (0 < 2 ^ g)%Z) by (apply Z.pow_pos_nonneg; lia).
  change (2 ^ 52)%Z with 4503599627370496%Z in *.
  change (2 ^ 53)%Z with 9007199254740992%Z in *.
  destruct (Z.le_gt_cases g b) as [Hge|Hlt].
  - replace b with ((b - g) + g)%Z in * by lia.
    rewrite !Z.pow_add_r in * by lia.
    assert (HPk : (0 < 2 ^ (b - g))%Z) by (apply Z.pow_pos_nonneg; lia).
    set (K := (my * 2 ^ (b - g))%Z).
    assert (HK : (S <= K * 2 ^ g)%Z) by (unfold K; lia).
    assert (Hm2K : (m2 <= K)%Z) by nia.
    unfold K in Hm2K. nia.
  - exfalso.
    assert (HPb : (0 < 2 ^ b)%Z) by (apply Z.pow_pos_nonneg; lia).
    assert (H2 : (2 * 2 ^ b <= 2 ^ g)%Z).
    { rewrite <- Z.pow_succ_r by lia. apply Z.pow_le_mono_r; lia. }
    nia.
Qed.

(** The order of two positive values, the first with a full mantissa, and
    the order of their exact values. *)
Lemma SFleb_of_le (m1 : positive) (e1 : Z) (my : positive) (ey : Z) :
  (2 ^ 52 <= Z.pos m1)%Z -> (-1074 <= e1)%Z ->
  bounded prec emax my ey = true ->
  (Z.pos m1 * 2 ^ (e1 + 1074) <= Z.pos my * 2 ^ (ey + 1074))%Z ->
  SFleb (if (e1 <=? 971)%Z then S754_finite false m1 e1 else S754_infinity false)
        (S754_finite false my ey) = true.
Proof.
  intros Hm1 He1 Hb Hle.
  pose proof (bounded_digits my ey Hb) as (Hey & Hmy & _).
  unfold bounded in Hb. apply andb_prop in Hb as [_ Hey']. apply Z.leb_le in Hey'.
  unfold SpecFloat.emin, emax, prec in *.
  change (2 ^ 52)%Z with 4503599627370496%Z in *.
  change (2 ^ 53)%Z with 9007199254740992%Z in *.
  assert (HP : (0 < 2 ^ (ey + 1074))%Z) by (apply Z.pow_pos_nonneg; lia).
  assert (Hee : (e1 <= ey)%Z).
  { destruct (Z.le_gt_cases e1 ey) as [|Hgt]; [assumption|exfalso].
    assert (H2 : (2 * 2 ^ (ey + 1074) <= 2 ^ (e1 + 1074))%Z).
    { rewrite <- Z.pow_succ_r by lia. apply Z.pow_le_mono_r; lia. }
    nia. }
  replace (e1 <=? 971)%Z with true by (symmetry; apply Z.leb_le; lia).
  unfold SFleb, SFcompare.
  destruct (Z.compare_spec e1 ey) as [E|E|E]; try reflexivity; try lia.
  subst e1. rewrite Pos.compare_cont_spec. simpl.
  destruct (Pos.compare_spec m1 my) as [E|E|E]; try reflexivity.
  exfalso. apply Pos2Z.pos_lt_pos in E. nia.
Qed.

Lemma le_of_SFleb (m1 : positive) (e1 : Z) (my : positive) (ey : Z) :
  (Z.pos m1 < 2 ^ 53)%Z -> (-1074 <= e1)%Z ->
  bounded prec emax my ey = true ->
  SFleb (if (e1 <=? 971)%Z then S754_finite false m1 e1 else S754_infinity false)
        (S754_finite false my ey) = true ->
  (Z.pos m1 * 2 ^ (e1 + 1074) <= Z.pos my * 2 ^ (ey + 1074))%Z.
Proof.
  intros Hm1 He1 Hb Hle.
  pose proof (bounded_digits my ey Hb) as (Hey & Hmy & Hnorm).
  unfold SpecFloat.emin, emax, prec in *.
  change (2 ^ 53)%Z with 9007199254740992%Z in *.
  destruct (e1 <=? 971)%Z; [|discriminate].
  unfold SFleb, SFcompare in Hle.
  assert (HP : (0 < 2 ^ (e1 + 1074))%Z) by (apply Z.pow_pos_nonneg; lia).
  destruct (Z.compare_spec e1 ey) as [E|E|E]; try discriminate.
  - subst e1. rewrite Pos.compare_cont_spec in Hle. simpl in Hle.
    destruct (Pos.compare_spec m1 my) as [E|E|E]; try discriminate.
    + subst. lia.
    + apply Pos2Z.pos_lt_pos in E. nia.
  - assert (H2 : (2 * 2 ^ (e1 + 1074) <= 2 ^ (ey + 1074))%Z).
    { rewrite <- Z.pow_succ_r by lia. apply Z.pow_le_mono_r; lia. }
    specialize (Hnorm ltac:(lia)). nia.
Qed.

(** The sum of two positive values, the second with a full mantissa: with
    [S * 2 ^ -1074] the exact sum, the result is [m2 * 2 ^ (g - 1074)], a
    neighbour of the exact sum among the multiples of [2 ^ (g - 1074)],
    which are at most [2 ^ -52] times the sum apart. *)
Lemma SFadd_pos_spec (mx : positive) (ex : Z) (mc : positive) (ec : Z) :
  bounded prec emax mx ex = true -> bounded prec emax mc ec = true ->
  (2 ^ 52 <= Z.pos mc)%Z ->
  exists (m1 : positive) (e1 g m2 : Z),
    SFadd prec emax (S754_finite false mx ex) (S754_finite false mc ec) =
      (if (e1 <=? 971)%Z then S754_finite false m1 e1 else S754_infinity false) /\
    (2 ^ 52 <= Z.pos m1 < 2 ^ 53)%Z /\ (-1074 <= e1)%Z /\ (0 <= g)%Z /\
    (Z.pos m1 * 2 ^ (e1 + 1074) = m2 * 2 ^ g)%Z /\
    (2 ^ 52 * 2 ^ g <= Z.pos mx * 2 ^ (ex + 1074) + Z.pos mc * 2 ^ (ec + 1074))%Z /\
    (Z.pos mx * 2 ^ (ex + 1074) + Z.pos mc * 2 ^ (ec + 1074) - 2 ^ g < m2 * 2 ^ g
     < Z.pos mx * 2 ^ (ex + 1074) + Z.pos mc * 2 ^ (ec + 1074) + 2 ^ g)%Z.
Proof.
  intros Bx Bc Hc.
  pose proof (bounded_digits mx ex Bx) as (Hex & _ & _).
  pose proof (bounded_digits mc ec Bc) as (Hec & _ & _).
  unfold SpecFloat.emin, emax, prec in Hex, Hec.
  unfold SFadd, cond_Zopp.
  set (ez := Z.min ex ec).
  assert (Hez : (-1074 <= ez)%Z) by (unfold ez; lia).
  pose proof (shl_align_fst mx ex ez ltac:(unfold ez; lia)) as Ha.
  pose proof (shl_align_fst mc ec ez ltac:(unfold ez; lia)) as Hb.
  set (pa := fst (shl_align mx ex ez)) in *.
  set (pb := fst (shl_align mc ec ez)) in *.
  change (Z.pos pa + Z.pos pb)%Z with (Z.pos (pa + pb)).
  cbn [binary_normalize].
  assert (HPc : (1 <= 2 ^ (ec - ez))%Z).
  { assert (0 < 2 ^ (ec - ez))%Z by (apply Z.pow_pos_nonneg; unfold ez; lia). lia. }
  assert (HM : (2 ^ 52 <= Z.pos (pa + pb))%Z).
  { rewrite Pos2Z.inj_add. change (2 ^ 52)%Z with 4503599627370496%Z in *. nia. }
  rewrite binary_round_large by assumption.
  destruct (binary_round_aux_spec (pa + pb) ez HM Hez)
    as (m1 & e1 & n & m2 & -> & Hm1 & Hn & He1 & Hv & HMn & Hm2).
  exists m1, e1, (n + (ez + 1074))%Z, m2.
  assert (HS : (Z.pos mx * 2 ^ (ex + 1074) + Z.pos mc * 2 ^ (ec + 1074) =
                Z.pos (pa + pb) * 2 ^ (ez + 1074))%Z).
  { rewrite Pos2Z.inj_add, Ha, Hb, Z.mul_add_distr_r, <- !Z.mul_assoc, <- !Z.pow_add_r
      by (unfold ez; lia).
    replace (ex - ez + (ez + 1074))%Z with (ex + 1074)%Z by lia.
    replace (ec - ez + (ez + 1074))%Z with (ec + 1074)%Z by lia.
    reflexivity. }
  rewrite HS.
  assert (HPa : (0 < 2 ^ (ez + 1074))%Z) by (apply Z.pow_pos_nonneg; lia).
  assert (HPn : (0 < 2 ^ n)%Z) by (apply Z.pow_pos_nonneg; lia).
  replace (e1 + 1074)%Z with ((e1 - ez) + (ez + 1074))%Z by lia.
  rewrite (Z.pow_add_r 2 (e1 - ez)), (Z.pow_add_r 2 n) by lia.
  rewrite Z.mul_assoc, Hv.
  change (2 ^ 52)%Z with 4503599627370496%Z in *.
  change (2 ^ 53)%Z with 9007199254740992%Z in *.
  generalize dependent (2 ^ (ez + 1074))%Z. intros A _ HPa.
  generalize dependent (2 ^ n)%Z. intros P _ HMn Hm2 HPn.
  generalize dependent (Z.pos (pa + pb)). intros M _ HMn Hm2.
  clear - Hm1 He1 Hn Hez HPa HPn HMn Hm2.
  assert (Hmono : forall u v : Z, (u < v)%Z -> (u * A < v * A)%Z)
    by (intros u v Huv; apply Z.mul_lt_mono_pos_r; assumption).
  pose proof (Hmono _ _ (proj1 Hm2)) as Hl.
  pose proof (Hmono _ _ (proj2 Hm2)) as Hu.
  pose proof (Z.mul_le_mono_nonneg_r _ _ A (Z.lt_le_incl _ _ HPa) HMn) as Hb.
  repeat split; lia.
Qed.

(** Every finite number is a multiple of [2 ^ -1074]. *)
Lemma toQ_scaled (x : JS.number) :
  (JS.toQ x ==
   inject_Z (match Prim2SF x with
             | S754_finite s m e => cond_Zopp s (Z.pos m) * 2 ^ (e + 1074)
             | _ => 0
             end) / inject_Z (2 ^ 1074))%Q.
Proof.
  pose proof (Prim2SF_valid x) as Hv. unfold JS.toQ.
  assert (HW : ~ (inject_Z (2 ^ 1074) == 0)%Q).
  { intros E0. apply (proj1 (inject_Z_injective (2 ^ 1074) 0)) in E0.
    pose proof (Z.pow_pos_nonneg 2 1074). lia. }
  destruct (Prim2SF x) as [s0|s0| |s m e]; try (field; exact HW).
  simpl in Hv. apply bounded_digits in Hv as (He & _ & _).
  unfold SpecFloat.emin, emax, prec in He.
  replace e with ((e + 1074) + Z.opp 1074)%Z at 1 by lia.
  rewrite Qpower_plus by discriminate.
  rewrite (Qpower_2_neg 1074) by lia.
  rewrite inject_Z_mult.
  change 2%Q with (inject_Z 2) at 1. rewrite <- (Zpower_Qpower 2 (e + 1074)) by lia.
  field. exact HW.
Qed.

Lemma Qle_scaled (a b w : Z) :
  (0 < w)%Z -> (inject_Z a / inject_Z w <= inject_Z b / inject_Z w)%Q -> (a <= b)%Z.
Proof.
  intros Hw H.
  assert (HW : (0 < inject_Z w)%Q) by (rewrite (Zlt_Qlt 0 w) in Hw; exact Hw).
  assert (HW0 : ~ (inject_Z w == 0)%Q) by (intros E0; rewrite E0 in HW; discriminate).
  apply (Qmult_le_compat_r _ _ (inject_Z w)) in H; [|apply Qlt_le_weak, HW].
  assert (E : forall c, (inject_Z c / inject_Z w * inject_Z w == inject_Z c)%Q)
    by (intros c; field; exact HW0).
  rewrite !E, <- Zle_Qle in H. exact H.
Qed.

Lemma Qlt_scaled (a b w : Z) :
  (0 < w)%Z -> (4503599627370495 * a < 4503599627370496 * b)%Z ->
  (inject_Z a / inject_Z w * (4503599627370495 # 4503599627370496)
   < inject_Z b / inject_Z w)%Q.
Proof.
  intros Hw H.
  assert (HW : (0 < inject_Z w)%Q) by (rewrite (Zlt_Qlt 0 w) in Hw; exact Hw).
  assert (HW0 : ~ (inject_Z w == 0)%Q) by (intros E0; rewrite E0 in HW; discriminate).
  apply (Qmult_lt_r _ _ (inject_Z w * 4503599627370496)).
  { apply Qmult_lt_0_compat; [exact HW|reflexivity]. }
  assert (E1 : (inject_Z a / inject_Z w * (4503599627370495 # 4503599627370496)
                * (inject_Z w * 4503599627370496)
                == inject_Z (4503599627370495 * a))%Q).
  { rewrite inject_Z_mult. change (inject_Z 4503599627370495) with 4503599627370495%Q.
    change (4503599627370495 # 4503599627370496)%Q
      with (4503599627370495 / 4503599627370496)%Q.
    field. exact HW0. }
  assert (E2 : (inject_Z b / inject_Z w * (inject_Z w * 4503599627370496)
                == inject_Z (4503599627370496 * b))%Q).
  { rewrite inject_Z_mult. change (inject_Z 4503599627370496) with 4503599627370496%Q.
    field. exact HW0. }
  rewrite E1, E2, <- Zlt_Qlt. exact H.
Qed.

Local Open Scope float_scope.

(** [x + 500] for a finite [x] that is not negative: with [S * 2 ^ -1074]
    the exact sum, the double is [m2 * 2 ^ (g - 1074)], a neighbour of the
    sum among the multiples of [2 ^ (g - 1074)]. *)
Lemma float_add_500_spec (x : JS.number) :
  (0 <=? x) = true -> JS.isFinite x = true ->
  exists (m1 : positive) (e1 g m2 S : Z),
    Prim2SF (x + 500) =
      (if (e1 <=? 971)%Z then S754_finite false m1 e1 else S754_infinity false) /\
    (JS.toQ x + 500 == inject_Z S / inject_Z (2 ^ 1074))%Q /\
    (2 ^ 52 <= Z.pos m1 < 2 ^ 53)%Z /\ (-1074 <= e1)%Z /\ (0 <= g)%Z /\
    (Z.pos m1 * 2 ^ (e1 + 1074) = m2 * 2 ^ g)%Z /\
    (2 ^ 52 * 2 ^ g <= S)%Z /\ (S - 2 ^ g < m2 * 2 ^ g < S + 2 ^ g)%Z.
Proof.
  rewrite float_nonneg_spec, add_spec. unfold JS.isFinite, SF64add.
  intros Hx Hfin.
  pose proof (toQ_scaled x) as Hq.
  pose proof (Prim2SF_valid x) as Vx.
  change (Prim2SF 500) with (S754_finite false 8796093022208000 (-44)).
  assert (Hc : bounded prec emax 8796093022208000 (-44) = true) by reflexivity.
  assert (HW0 : ~ (inject_Z (2 ^ 1074) == 0)%Q).
  { intros E0. apply (proj1 (inject_Z_injective (2 ^ 1074) 0)) in E0.
    pose proof (Z.pow_pos_nonneg 2 1074). lia. }
  assert (H500 : (500 == inject_Z (8796093022208000 * 2 ^ (-44 + 1074))
                         / inject_Z (2 ^ 1074))%Q).
  { replace (8796093022208000 * 2 ^ (-44 + 1074))%Z with (500 * 2 ^ 1074)%Z.
    - rewrite inject_Z_mult. change (inject_Z 500) with 500%Q. field. exact HW0.
    - change 8796093022208000%Z with (500 * 2 ^ 44)%Z.
      rewrite <- Z.mul_assoc, <- Z.pow_add_r by lia. reflexivity. }
  assert (Hsum : forall a : Z,
            (JS.toQ x == inject_Z a / inject_Z (2 ^ 1074))%Q ->
            (JS.toQ x + 500 ==
             inject_Z (a + 8796093022208000 * 2 ^ (-44 + 1074))
             / inject_Z (2 ^ 1074))%Q).
  { intros a Ha. rewrite Ha, H500 at 1. rewrite inject_Z_plus. field. exact HW0. }
  destruct (Prim2SF x) as [sx|sx| |sx mx ex]; try discriminate.
  - exists 8796093022208000%positive, (-44)%Z, (-44 + 1074)%Z,
           8796093022208000%Z, (0 + 8796093022208000 * 2 ^ (-44 + 1074))%Z.
    assert (0 < 2 ^ (-44 + 1074))%Z by (apply Z.pow_pos_nonneg; lia).
    change (2 ^ 52)%Z with 4503599627370496%Z.
    change (2 ^ 53)%Z with 9007199254740992%Z.
    split; [destruct sx; reflexivity|]. split; [apply Hsum, Hq|].
    repeat split; lia.
  - destruct sx; try discriminate. simpl in Vx.
    destruct (SFadd_pos_spec mx ex 8796093022208000 (-44) Vx Hc)
      as (m1 & e1 & g & m2 & E & H1 & H2 & H3 & H4 & H5 & H6).
    { change (2 ^ 52)%Z with 4503599627370496%Z. lia. }
    exists m1, e1, g, m2,
      (Z.pos mx * 2 ^ (ex + 1074) + 8796093022208000 * 2 ^ (-44 + 1074))%Z.
    split; [exact E|]. split; [apply Hsum, Hq|].
    repeat split; assumption || apply H1 || apply H6.
Qed.

(** When [y] is at least the exact sum of [x] and 500, the test
    [x + 500 <= y] holds on doubles. *)
Lemma float_add_500_leb (x y : JS.number) :
  (0 <=? x) = true -> JS.isFinite x = true ->
  (JS.toQ x + 500 <= JS.toQ y)%Q ->
  (x + 500 <=? y) = true.
Proof.
  intros Hx Hfin Hle.
  destruct (float_add_500_spec x Hx Hfin)
    as (m1 & e1 & g & m2 & S & E & Hq & Hm1 & He1 & Hg & Hv & HS & Hm2).
  rewrite leb_spec, E. rewrite Hq, (toQ_scaled y) in Hle.
  apply Qle_scaled in Hle; [|apply Z.pow_pos_nonneg; lia].
  pose proof (Prim2SF_valid y) as Vy.
  assert (HPg : (0 < 2 ^ g)%Z) by (apply Z.pow_pos_nonneg; lia).
  assert (HS0 : (0 < S)%Z) by (change (2 ^ 52)%Z with 4503599627370496%Z in HS; lia).
  destruct (Prim2SF y) as [sy|sy| |sy my ey]; try lia.
  simpl in Vy. pose proof (bounded_digits my ey Vy) as (Hey & Hmy & _).
  unfold SpecFloat.emin, emax, prec in Hey, Hmy.
  assert (HPy : (0 < 2 ^ (ey + 1074))%Z) by (apply Z.pow_pos_nonneg; lia).
  destruct sy; unfold cond_Zopp in Hle; [exfalso; nia|].
  apply SFleb_of_le; try assumption; try lia.
  rewrite Hv. apply (round_le_representable S); try assumption; lia.
Qed.

(** When the test [x + 500 <= y] holds on doubles, [y] is above the exact
    sum of [x] and 500 less its [2 ^ -52]th part. *)
Lemma float_add_500_leb_lower (x y : JS.number) :
  (0 <=? x) = true -> JS.isFinite x = true -> JS.isFinite y = true ->
  (x + 500 <=? y) = true ->
  ((JS.toQ x + 500) * (4503599627370495 # 4503599627370496) < JS.toQ y)%Q.
Proof.
  intros Hx Hfin Hy Hle.
  destruct (float_add_500_spec x Hx Hfin)
    as (m1 & e1 & g & m2 & S & E & Hq & Hm1 & He1 & Hg & Hv & HS & Hm2).
  rewrite leb_spec, E in Hle. rewrite Hq, (toQ_scaled y).
  apply Qlt_scaled; [apply Z.pow_pos_nonneg; lia|].
  pose proof (Prim2SF_valid y) as Vy. unfold JS.isFinite in Hy.
  assert (HPg : (0 < 2 ^ g)%Z) by (apply Z.pow_pos_nonneg; lia).
  destruct (Prim2SF y) as [sy|sy| |sy my ey]; try discriminate;
    try (destruct (e1 <=? 971)%Z; discriminate).
  destruct sy; [destruct (e1 <=? 971)%Z; discriminate|].
  simpl in Vy. apply le_of_SFleb in Hle; try assumption; try lia.
  unfold cond_Zopp. rewrite Hv in Hle.
  change (2 ^ 52)%Z with 4503599627370496%Z in HS. lia.
Qed.

End RoundingOrder.

(** ** The stepping loop, on any arithmetic *)

Section SteppingLoopFacts.
Context {num : Type} `{Number num} {W : Type}.
Variable step : W -> W.
Variable F : num.

Lemma stepLoop_step (s : LoopState) :
  stepLoop step F s = if loopCond F s then stepLoop step F (loopBody step F s) else s.
Proof.
  rewrite stepLoop_equation_1. unfold stepLoop_unfold_clause_1, inspect.
  destruct (loopCond F s); reflexivity.
Qed.

(** Induction along the iterations of the loop. *)
Lemma stepLoop_induction (P : LoopState -> LoopState -> Prop) :
  (forall s, loopCond F s = false -> P s s) ->
  (forall s r, loopCond F s = true -> P (loopBody step F s) r -> P s r) ->
  forall s, P s (stepLoop step F s).
Proof.
  intros Hexit Hiter s.
  remember (5 - loop_steps s)%nat as n eqn:Hn.
  revert s Hn. induction n as [n IH] using lt_wf_ind. intros s Hn.
  rewrite stepLoop_step. destruct (loopCond F s) eqn:Hc.
  - apply Hiter; [exact Hc|].
    apply (IH (5 - loop_steps (loopBody step F s))%nat); [|reflexivity].
    unfold loopCond in Hc. apply andb_prop in Hc as [_ Hc].
    apply Nat.ltb_lt in Hc. simpl. lia.
  - apply Hexit, Hc.
Qed.

(** The loop runs its body [k] times, [k] the growth of [steps]; [steps]
    never passes 5, and the condition is false at the exit. *)
Lemma stepLoop_iter (s : LoopState) :
  let r := stepLoop step F s in
  (loop_steps s <= loop_steps r)%nat /\
  r = Nat.iter (loop_steps r - loop_steps s) (loopBody step F) s /\
  (loop_steps r <= Nat.max 5 (loop_steps s))%nat /\
  loopCond F r = false.
Proof.
  revert s. cbv zeta.
  apply (stepLoop_induction (fun s r =>
    (loop_steps s <= loop_steps r)%nat /\
    r = Nat.iter (loop_steps r - loop_steps s) (loopBody step F) s /\
    (loop_steps r <= Nat.max 5 (loop_steps s))%nat /\
    loopCond F r = false)).
  - intros s0 Hc. rewrite Nat.sub_diag. simpl. repeat split; auto; lia.
  - intros s0 r Hc (Hle & Hr & Hmax & Hex). simpl in Hle, Hmax.
    unfold loopCond in Hc. apply andb_prop in Hc as [_ Hc]. apply Nat.ltb_lt in Hc.
    repeat split; auto; try lia.
    replace (loop_steps r - loop_steps s0)%nat
      with (S (loop_steps r - S (loop_steps s0)))%nat by lia.
    rewrite Nat.iter_succ_r. exact Hr.
Qed.

Lemma iter_loopBody k (s : LoopState) :
  Nat.iter k (loopBody step F) s =
  {| loop_world := Nat.iter k step (loop_world s);
     loop_accumulator := Nat.iter k (fun a => nsub a F) (loop_accumulator s);
     loop_steps := (k + loop_steps s)%nat |}.
Proof.
  induction k as [|k IH]; simpl.
  - destruct s; reflexivity.
  - rewrite IH. reflexivity.
Qed.

(** How an invocation leaves its loop: below the step size, or at the cap
    with a step still due. *)
Lemma advance_exit (w : W) (acc dt : num) :
  let l := advance step F w acc dt in
  (loop_steps l <= 5)%nat /\
  l = Nat.iter (loop_steps l) (loopBody step F) (mkLoop w (nadd acc dt) 0) /\
  (ngeb (loop_accumulator l) F = false \/
   (loop_steps l = 5%nat /\ ngeb (loop_accumulator l) F = true)).
Proof.
  cbv zeta. unfold advance.
  destruct (stepLoop_iter (mkLoop w (nadd acc dt) 0)) as (_ & Hr & Hmax & Hex).
  simpl in Hr, Hmax. rewrite Nat.sub_0_r in Hr.
  repeat split; [lia|exact Hr|].
  unfold loopCond in Hex. apply andb_false_iff in Hex as [Hex|Hex]; [left; exact Hex|].
  apply Nat.ltb_ge in Hex.
  destruct (ngeb _ F) eqn:Hge; [right; split; [lia|reflexivity]|left; reflexivity].
Qed.

(** A property of the accumulator that every subtraction the loop makes
    re-establishes holds when the loop is left. *)
Lemma stepLoop_accumulator (P : num -> Prop) :
  (forall a, ngeb a F = true -> P (nsub a F)) ->
  forall s, P (loop_accumulator s) -> P (loop_accumulator (stepLoop step F s)).
Proof.
  intros Hsub.
  apply (stepLoop_induction (fun s r =>
    P (loop_accumulator s) -> P (loop_accumulator r))).
  - auto.
  - intros s r Hc IH _. apply IH. simpl. apply Hsub.
    unfold loopCond in Hc. apply andb_prop in Hc as [Hc _]. exact Hc.
Qed.

End SteppingLoopFacts.


(** ** The stepping loop on exact rationals *)

Section Exact.
Context {W : Type}.
Variable step : W -> W.
Variable F : Q.
Hypothesis F_pos : (0 < F)%Q.

Local Open Scope Q_scope.

Lemma iter_Qminus k (x : Q) :
  Nat.iter k (fun a => nsub a F) x == x - inject_Z (Z.of_nat k) * F.
Proof.
  induction k as [|k IH].
  - simpl. ring.
  - rewrite Nat2Z.inj_succ, <- Z.add_1_r, inject_Z_plus.
    simpl Nat.iter. simpl nsub. rewrite IH. ring.
Qed.

(** One invocation on exact rationals. *)
Lemma exact_advance (w : W) (acc dt : Q) :
  0 <= acc -> 0 <= dt ->
  let l := advance step F w acc dt in
  loop_accumulator l == acc + dt - inject_Z (Z.of_nat (loop_steps l)) * F /\
  0 <= loop_accumulator l /\
  (loop_accumulator l < F \/ (loop_steps l = 5%nat /\ F <= loop_accumulator l)).
Proof.
  intros Hacc Hdt. cbv zeta.
  destruct (advance_exit step F w acc dt) as (_ & Hr & Hex).
  split; [|split].
  - rewrite Hr at 1. rewrite iter_loopBody. simpl loop_accumulator.
    rewrite iter_Qminus. reflexivity.
  - unfold advance.
    apply (stepLoop_accumulator step F (fun a => 0 <= a)).
    + simpl. intros a Ha. apply Qle_bool_iff in Ha.
      apply (Qplus_le_l _ _ F). ring_simplify. exact Ha.
    + simpl. apply Qle_trans with (0 + 0). { apply Qle_refl. }
      apply Qplus_le_compat; assumption.
  - destruct Hex as [Hex|[H5 Hex]]; simpl in Hex.
    + left. apply Qnot_le_lt. intros Hle. apply Qle_bool_iff in Hle. congruence.
    + right. split; [exact H5|]. apply Qle_bool_iff, Hex.
Qed.

Lemma accumulatorAfter_cons {num X : Type} (acc : num) (l : @LoopState num X) ls :
  accumulatorAfter acc (l :: ls) = accumulatorAfter (loop_accumulator l) ls.
Proof.
  unfold accumulatorAfter. rewrite last_cons. destruct (last ls); reflexivity.
Qed.

Lemma totalSteps_cons {num X : Type} (l : @LoopState num X) ls :
  totalSteps (l :: ls) = (loop_steps l + totalSteps ls)%nat.
Proof. reflexivity. Qed.

(** A sequence of invocations on exact rationals: what the accumulator holds
    is the time received less the time stepped. *)
Lemma exact_advances (dts : list Q) : forall (w : W) (acc : Q),
  0 <= acc -> Forall (Qle 0) dts ->
  let ls := advances step F w acc dts in
  accumulatorAfter acc ls == acc + Qsum dts - inject_Z (Z.of_nat (totalSteps ls)) * F /\
  0 <= accumulatorAfter acc ls /\
  Forall (fun l => 0 <= loop_accumulator l /\
                   (loop_accumulator l < F \/
                    (loop_steps l = 5%nat /\ F <= loop_accumulator l))) ls.
Proof.
  induction dts as [|dt dts IH]; intros w acc Hacc Hdts; cbv zeta.
  - simpl. unfold accumulatorAfter, totalSteps. simpl. repeat split; auto.
    ring.
  - apply Forall_cons in Hdts as [Hdt Hdts]. simpl advances.
    destruct (exact_advance w acc dt Hacc Hdt) as (Heq & Hnn & Hex).
    set (l := advance step F w acc dt) in *.
    destruct (IH (loop_world l) (loop_accumulator l) Hnn Hdts) as (IHeq & IHnn & IHall).
    set (ls := advances step F (loop_world l) (loop_accumulator l) dts) in *.
    rewrite accumulatorAfter_cons. split; [|split].
    + rewrite IHeq, totalSteps_cons, Nat2Z.inj_add, inject_Z_plus, Heq.
      change (Qsum (dt :: dts)) with (dt + Qsum dts). ring.
    + exact IHnn.
    + constructor; [split; assumption|exact IHall].
Qed.

Lemma Qfloor_plus_Z (x : Q) (n : Z) : Qfloor (x + inject_Z n) = (Qfloor x + n)%Z.
Proof.
  destruct x as [a b]. unfold Qplus, inject_Z, Qfloor. simpl.
  rewrite Z.mul_1_r, Pos.mul_1_r. apply Z.div_add. lia.
Qed.

Lemma Qfloor_unit (x : Q) : 0 <= x -> x < 1 -> Qfloor x = 0%Z.
Proof.
  intros H0 H1.
  pose proof (Qfloor_le x) as Hl. pose proof (Qlt_floor x) as Hu.
  assert (A : inject_Z (Qfloor x) < inject_Z 1) by (eapply Qle_lt_trans; eassumption).
  assert (B : inject_Z 0 < inject_Z (Qfloor x + 1)) by (eapply Qle_lt_trans; eassumption).
  rewrite <- Zlt_Qlt in A, B. lia.
Qed.

(** The counting identity: the steps taken are [floor (total / F)] less the
    whole steps the accumulator still holds. *)
Lemma exact_count (dts : list Q) (w : W) :
  Forall (Qle 0) dts ->
  let ls := advances step F w 0 dts in
  let acc := accumulatorAfter 0 ls in
  Z.of_nat (totalSteps ls) = (Qfloor (Qsum dts / F) - Qfloor (acc / F))%Z /\
  (acc < F -> Z.of_nat (totalSteps ls) = Qfloor (Qsum dts / F)).
Proof.
  intros Hdts. cbv zeta.
  destruct (exact_advances dts w 0 (Qle_refl 0) Hdts) as (Heq & Hnn & _).
  set (ls := advances step F w 0 dts) in *.
  set (acc := accumulatorAfter 0 ls) in *.
  assert (HF : ~ F == 0) by (intros E; rewrite E in F_pos; discriminate).
  assert (Hsum : Qsum dts / F == acc / F + inject_Z (Z.of_nat (totalSteps ls))).
  { rewrite Heq. field. exact HF. }
  assert (Hfl : Qfloor (Qsum dts / F) = (Qfloor (acc / F) + Z.of_nat (totalSteps ls))%Z).
  { rewrite Hsum. apply Qfloor_plus_Z. }
  split; [lia|].
  intros Hlt. rewrite Hfl, Qfloor_unit; [lia| |].
  - apply Qle_shift_div_l; [exact F_pos|]. ring_simplify. exact Hnn.
  - apply Qlt_shift_div_r; [exact F_pos|]. ring_simplify. exact Hlt.
Qed.

End Exact.

(** ** The callbacks of [App] *)

Section AppFacts.
Context {engine : RAPIER.Engine}.

Implicit Types (a : App) (c : Cube) (w : RAPIER.World) (sc : THREE.Scene)
  (log : list Call) (cs : list Cube).

(** *** The parts of the state after [frame] *)

Lemma syncCubes_cons w c cs sl :
  syncCubes w (c :: cs) sl = syncCubes w cs (syncCube w sl c).
Proof. reflexivity. Qed.

Lemma syncCubes_calls w cs : forall sl,
  snd (syncCubes w cs sl) = snd sl ++ (CallCopy <$> cs).
Proof.
  induction cs as [|c cs IH]; intros sl.
  - simpl. symmetry. apply app_nil_r.
  - rewrite syncCubes_cons, IH. simpl. rewrite <- app_assoc. reflexivity.
Qed.

Lemma syncCubes_scene_log w cs : forall sl sl',
  fst sl = fst sl' -> fst (syncCubes w cs sl) = fst (syncCubes w cs sl').
Proof.
  induction cs as [|c cs IH]; intros sl sl' E; [exact E|].
  rewrite !syncCubes_cons. apply IH. simpl. rewrite E. reflexivity.
Qed.

Lemma syncCubes_length w cs : forall sl,
  length (fst (syncCubes w cs sl)) = length (fst sl).
Proof.
  induction cs as [|c cs IH]; intros sl; [reflexivity|].
  rewrite syncCubes_cons, IH. simpl. apply length_alter.
Qed.

Lemma iter_stepWorld k w log :
  Nat.iter k stepWorld (w, log) = (Nat.iter k RAPIER.step w, log ++ replicate k CallStep).
Proof.
  induction k as [|k IH]; simpl.
  - rewrite app_nil_r. reflexivity.
  - rewrite IH. unfold stepWorld. simpl. f_equal.
    rewrite <- app_assoc. f_equal.
    change (replicate k CallStep ++ [CallStep] = replicate (S k) CallStep).
    rewrite replicate_S_end. reflexivity.
Qed.

(** The loop of [frame dt _ a] leaves the world stepped [stepsTaken dt a]
    times, with as many calls recorded. *)
Lemma advance_world dt a :
  loop_world (advance stepWorld fixedTimestep (world a, calls a) (accumulator a) dt) =
  (Nat.iter (stepsTaken dt a) RAPIER.step (world a),
   calls a ++ replicate (stepsTaken dt a) CallStep).
Proof.
  unfold stepsTaken.
  destruct (advance_exit stepWorld fixedTimestep (world a, calls a) (accumulator a) dt)
    as (_ & Hr & _).
  rewrite Hr at 1. rewrite iter_loopBody. simpl. apply iter_stepWorld.
Qed.

Lemma frame_unfold dt now a :
  let k := stepsTaken dt a in
  let w1 := Nat.iter k RAPIER.step (world a) in
  let sl := syncCubes w1 (cubes a) (scene a, calls a ++ replicate k CallStep) in
  frame dt now a =
  {| scene := fst sl;
     world := w1;
     fpsTracker := snd (FPSTracker.update now (fpsTracker a));
     cubes := cubes a;
     accumulator :=
       loop_accumulator
         (advance stepWorld fixedTimestep (world a, calls a) (accumulator a) dt);
     fps := fst (FPSTracker.update now (fpsTracker a));
     cubesAmount := cubesAmount a;
     calls := snd sl ++ [CallRender (fst sl)] |}.
Proof.
  cbv zeta. unfold frame.
  destruct (FPSTracker.update now (fpsTracker a)) as [est tr1].
  rewrite advance_world.
  destruct (syncCubes _ (cubes a) _) as [sc1 log1]. reflexivity.
Qed.

Lemma stepCalls_app l1 l2 : stepCalls (l1 ++ l2) = (stepCalls l1 + stepCalls l2)%nat.
Proof. unfold stepCalls. rewrite List.filter_app, length_app. reflexivity. Qed.

Lemma stepCalls_replicate k : stepCalls (replicate k CallStep) = k.
Proof.
  unfold stepCalls. induction k as [|k IH]; simpl; [reflexivity|]. rewrite IH. reflexivity.
Qed.

Lemma stepCalls_copies cs : stepCalls (CallCopy <$> cs) = 0%nat.
Proof. unfold stepCalls. induction cs as [|c cs IH]; simpl; auto. Qed.

Lemma frame_calls dt now a :
  calls (frame dt now a) =
  calls a ++ replicate (stepsTaken dt a) CallStep ++ (CallCopy <$> cubes a)
          ++ [CallRender (scene (frame dt now a))].
Proof.
  rewrite (frame_unfold dt now a). cbv zeta. simpl.
  rewrite syncCubes_calls. simpl. rewrite <- !app_assoc. reflexivity.
Qed.

(** *** The sync, object by object *)

(** What one iteration of the [forEach] does to the object at index [i]. *)
Lemma syncCube_lookup w sl c i :
  fst (syncCube w sl c) !! i =
  if decide (mesh c = i)
  then THREE.copyTransform (RAPIER.translation (rigidBody c) w)
                           (RAPIER.rotation (rigidBody c) w) <$> fst sl !! i
  else fst sl !! i.
Proof.
  unfold syncCube. cbn [fst]. rewrite list_lookup_alter.
  destruct (decide (mesh c = i)) as [<-|Hne]; reflexivity.
Qed.

Lemma copyTransform_absorb v q v' q' (o : THREE.Object3D) :
  THREE.copyTransform v q (THREE.copyTransform v' q' o) = THREE.copyTransform v q o.
Proof. reflexivity. Qed.

(** The whole [forEach] leaves the object at [i] as it was, or with the
    transform of one pair's body copied onto it; which one does not depend
    on the scene it starts from. *)
Lemma syncCubes_lookup w cs i :
  (forall sl, fst (syncCubes w cs sl) !! i = fst sl !! i) \/
  (exists c, c ∈ cs /\ mesh c = i /\ forall sl,
     fst (syncCubes w cs sl) !! i =
     THREE.copyTransform (RAPIER.translation (rigidBody c) w)
                         (RAPIER.rotation (rigidBody c) w) <$> fst sl !! i).
Proof.
  induction cs as [|c cs IH].
  - left. reflexivity.
  - destruct IH as [IH|(c' & Hin & Hm & IH)].
    + destruct (decide (mesh c = i)) as [E|Hne].
      * right. exists c. split; [left|split; [exact E|]].
        intros sl. rewrite syncCubes_cons, IH, syncCube_lookup.
        rewrite decide_True by exact E. reflexivity.
      * left. intros sl. rewrite syncCubes_cons, IH, syncCube_lookup.
        rewrite decide_False by exact Hne. reflexivity.
    + right. exists c'. split; [right; exact Hin|split; [exact Hm|]].
      intros sl. rewrite syncCubes_cons, IH, syncCube_lookup.
      destruct (decide (mesh c = i)); [|reflexivity].
      destruct (fst sl !! i); reflexivity.
Qed.

(** With every pair its own mesh, the mesh of each pair gets the transform
    of that pair's body. *)
Lemma syncCubes_lookup_mesh w cs : NoDup (mesh <$> cs) ->
  forall c sl, c ∈ cs ->
  fst (syncCubes w cs sl) !! mesh c =
  THREE.copyTransform (RAPIER.translation (rigidBody c) w)
                      (RAPIER.rotation (rigidBody c) w) <$> fst sl !! mesh c.
Proof.
  induction cs as [|c0 cs IH]; intros Hnd c sl Hin.
  - inversion Hin.
  - rewrite fmap_cons in Hnd. apply NoDup_cons in Hnd as [Hnotin Hnd].
    rewrite syncCubes_cons. apply elem_of_cons in Hin as [->|Hin].
    + destruct (syncCubes_lookup w cs (mesh c0)) as [Hsame|(c' & Hin' & Hm & _)].
      * rewrite Hsame, syncCube_lookup, decide_True by reflexivity. reflexivity.
      * exfalso. apply Hnotin. rewrite <- Hm. apply list_elem_of_fmap_2, Hin'.
    + rewrite (IH Hnd c _ Hin), syncCube_lookup.
      rewrite decide_False; [reflexivity|].
      intros E. apply Hnotin. rewrite E. apply list_elem_of_fmap_2, Hin.
Qed.

(** An object no pair refers to is left as it is. *)
Lemma syncCubes_lookup_other w cs i sl :
  i ∉ mesh <$> cs -> fst (syncCubes w cs sl) !! i = fst sl !! i.
Proof.
  intros Hnotin. destruct (syncCubes_lookup w cs i) as [H|(c & Hin & Hm & _)].
  - apply H.
  - exfalso. apply Hnotin. rewrite <- Hm. apply list_elem_of_fmap_2, Hin.
Qed.

(** *** The invariant of the pairs *)

Lemma meshesInScene_setup now : meshesInScene (setup now).
Proof.
  open_setup. split; simpl; constructor.
Qed.

Lemma frame_cubes dt now a : cubes (frame dt now a) = cubes a.
Proof. rewrite (frame_unfold dt now a). reflexivity. Qed.

Lemma frame_scene_length dt now a : length (scene (frame dt now a)) = length (scene a).
Proof. rewrite (frame_unfold dt now a). cbv zeta. simpl. apply syncCubes_length. Qed.

Lemma spawnCube_cases r1 r2 a :
  ((50 <? FPSTracker.fps (fpsTracker a))%float = false /\ spawnCube r1 r2 a = a) \/
  ((50 <? FPSTracker.fps (fpsTracker a))%float = true /\
   exists body w',
     cubes (spawnCube r1 r2 a) = cubes a ++ [mkCube (length (scene a)) body] /\
     scene (spawnCube r1 r2 a) =
       scene a ++ [THREE.mkObject3D THREE.CubeMesh (THREE.mkVector3 0 0 0)
                     (THREE.mkQuaternion 0 0 0 1) true true] /\
     world (spawnCube r1 r2 a) = w' /\
     cubesAmount (spawnCube r1 r2 a) = S (length (cubes a)) /\
     fpsTracker (spawnCube r1 r2 a) = fpsTracker a /\
     accumulator (spawnCube r1 r2 a) = accumulator a).
Proof.
  unfold spawnCube. destruct (50 <? FPSTracker.fps (fpsTracker a))%float.
  - right. split; [reflexivity|].
    destruct (RAPIER.createRigidBody _ _) as [body w1].
    destruct (RAPIER.createCollider _ body w1) as [col w2].
    exists body, (RAPIER.setFriction 0.5 col (RAPIER.setRestitution 0.5 col w2)).
    simpl. rewrite length_app. simpl. repeat split; auto. lia.
  - left. split; reflexivity.
Qed.

Lemma meshesInScene_spawnCube r1 r2 a :
  meshesInScene a -> meshesInScene (spawnCube r1 r2 a).
Proof.
  intros [Hnd Hall].
  destruct (spawnCube_cases r1 r2 a) as [[_ ->]|(_ & body & w' & Hc & Hs & _)];
    [split; assumption|].
  unfold meshesInScene. rewrite Hc, Hs, fmap_app, length_app. simpl. split.
  - apply NoDup_app. split; [exact Hnd|]. split; [|apply NoDup_singleton].
    intros i Hi Hi'. apply list_elem_of_singleton in Hi'. subst i.
    apply list_elem_of_fmap in Hi as (c & Hm & Hin).
    rewrite Forall_forall in Hall. specialize (Hall c Hin). lia.
  - apply Forall_app. split.
    + eapply Forall_impl; [exact Hall|]. simpl. intros c Hc'. lia.
    + constructor; [simpl; lia|constructor].
Qed.

Lemma meshesInScene_frame dt now a :
  meshesInScene a -> meshesInScene (frame dt now a).
Proof.
  intros [Hnd Hall]. unfold meshesInScene.
  rewrite frame_cubes, frame_scene_length. split; assumption.
Qed.

Lemma run_snoc evs e a : run (evs ++ [e]) a = handle (run evs a) e.
Proof. unfold run. rewrite foldl_app. reflexivity. Qed.

Lemma run_app evs1 evs2 a : run (evs1 ++ evs2) a = run evs2 (run evs1 a).
Proof. unfold run. apply foldl_app. Qed.

Lemma meshesInScene_run evs : forall a, meshesInScene a -> meshesInScene (run evs a).
Proof.
  induction evs as [|e evs IH]; intros a Ha; [exact Ha|].
  simpl. apply IH. destruct e as [r1 r2|dt now]; simpl.
  - apply meshesInScene_spawnCube, Ha.
  - apply meshesInScene_frame, Ha.
Qed.

End AppFacts.

(** * Properties of the tracker, the spawner and the frame loop *)

(** ** The FPS tracker *)

Lemma updates_within_window times : forall tr : FPSTracker.t,
  Forall (fun now => (FPSTracker.lastTime tr + 500 <=? now)%float = false) times ->
  fst (FPSTracker.updates times tr) = replicate (length times) (FPSTracker.fps tr) /\
  FPSTracker.fps (snd (FPSTracker.updates times tr)) = FPSTracker.fps tr /\
  FPSTracker.lastTime (snd (FPSTracker.updates times tr)) = FPSTracker.lastTime tr.
Proof.
  induction times as [|now times IH]; intros tr Hall.
  - repeat split.
  - apply Forall_cons in Hall as [Hnow Hall].
    simpl. unfold FPSTracker.update. rewrite Hnow.
    specialize (IH {| FPSTracker.fps := FPSTracker.fps tr;
                      FPSTracker.frameCount := (FPSTracker.frameCount tr + 1)%float;
                      FPSTracker.lastTime := FPSTracker.lastTime tr |} Hall).
    destruct (FPSTracker.updates times _) as [rs tr2].
    destruct IH as (IH1 & IH2 & IH3). simpl in *.
    rewrite IH1. repeat split; assumption.
Qed.

(** C3 (as amended).  A call of [update] counts the frame.  When the test
    [currentTime >= lastTime + 500] holds, sum and comparison taken on
    doubles, it sets the estimate to [Math.round (frames * 1000 / elapsed)],
    the frames of the window counting this one and the quotient taken on
    doubles; whenever that quotient is finite the estimate is the integer
    [floor (q + 1/2)] of its exact value [q], the nearest integer with halves
    going up.  It then starts a new window at the current time with no frame
    in it and returns the new estimate.  When the test fails it returns the
    estimate it had and keeps it and the window, so calls at which the test
    fails all return the same value.  For a window that started at a finite
    time that is not negative, the test holds whenever at least 500 ms have
    elapsed, on the exact values of the two times, and at a finite current
    time it holds only when more than [500 - (lastTime + 500) * 2 ^ -52] ms
    have elapsed. *)
Theorem FPSTracker_update_contract (tr : FPSTracker.t) (now : JS.number) :
  let ret := fst (FPSTracker.update now tr) in
  let tr' := snd (FPSTracker.update now tr) in
  let quotient :=
    ((FPSTracker.frameCount tr + 1) * 1000 / (now - FPSTracker.lastTime tr))%float in
  let elapsed := (JS.toQ now - JS.toQ (FPSTracker.lastTime tr))%Q in
  ((FPSTracker.lastTime tr + 500 <=? now)%float = true ->
     FPSTracker.fps tr' = JS.Math_round quotient /\
     (JS.isFinite quotient = true ->
      (JS.toQ (FPSTracker.fps tr') ==
       inject_Z (Qfloor (JS.toQ quotient + (1 # 2))))%Q) /\
     (JS.isFinite quotient = false -> FPSTracker.fps tr' = quotient) /\
     FPSTracker.lastTime tr' = now /\
     FPSTracker.frameCount tr' = 0%float /\
     ret = FPSTracker.fps tr') /\
  ((FPSTracker.lastTime tr + 500 <=? now)%float = false ->
     ret = FPSTracker.fps tr /\
     FPSTracker.fps tr' = FPSTracker.fps tr /\
     FPSTracker.lastTime tr' = FPSTracker.lastTime tr /\
     FPSTracker.frameCount tr' = (FPSTracker.frameCount tr + 1)%float) /\
  (forall times,
     Forall (fun t => (FPSTracker.lastTime tr + 500 <=? t)%float = false) times ->
     fst (FPSTracker.updates times tr) = replicate (length times) (FPSTracker.fps tr) /\
     FPSTracker.fps (snd (FPSTracker.updates times tr)) = FPSTracker.fps tr /\
     FPSTracker.lastTime (snd (FPSTracker.updates times tr)) = FPSTracker.lastTime tr) /\
  ((0 <=? FPSTracker.lastTime tr)%float = true ->
   JS.isFinite (FPSTracker.lastTime tr) = true ->
     ((500 <= elapsed)%Q -> (FPSTracker.lastTime tr + 500 <=? now)%float = true) /\
     (JS.isFinite now = true ->
      (FPSTracker.lastTime tr + 500 <=? now)%float = true ->
      (500 - (JS.toQ (FPSTracker.lastTime tr) + 500) * (1 # 4503599627370496)
       < elapsed)%Q)).
Proof.
  cbv zeta. unfold FPSTracker.update.
  split; [|split; [|split]].
  - intros ->. cbn [fst snd FPSTracker.fps FPSTracker.lastTime FPSTracker.frameCount].
    split; [reflexivity|]. split; [apply Math_round_spec|].
    split; [apply Math_round_nonfinite|]. repeat split.
  - intros ->. simpl. repeat split.
  - intros times. apply updates_within_window.
  - intros H0 Hfin. split.
    + intros Hle. apply float_add_500_leb; try assumption. lra.
    + intros Hnow Htest.
      pose proof (float_add_500_leb_lower _ _ H0 Hfin Hnow Htest) as Hlow.
      assert (Hc : ((4503599627370495 # 4503599627370496)
                    == 1 - (1 # 4503599627370496))%Q) by reflexivity.
      rewrite Hc in Hlow. lra.
Qed.

Section Properties.
Context {engine : RAPIER.Engine}.

Implicit Types (a : App) (c : Cube) (evs : list Event).

Lemma spawnCube_accumulator r1 r2 a : accumulator (spawnCube r1 r2 a) = accumulator a.
Proof.
  destruct (spawnCube_cases r1 r2 a) as [[_ ->]|(_ & b & w' & _ & _ & _ & _ & _ & H)];
    [reflexivity|exact H].
Qed.

Lemma frame_accumulator dt now a :
  accumulator (frame dt now a) =
  loop_accumulator (advance stepWorld fixedTimestep (world a, calls a) (accumulator a) dt).
Proof. rewrite (frame_unfold dt now a). reflexivity. Qed.

(** One invocation keeps the accumulator from going negative, and leaves it
    below the step size unless the cap stopped the loop. *)
Lemma frame_accumulator_bounds dt now a :
  (0 <=? accumulator a)%float = true -> (0 <=? dt)%float = true ->
  (0 <=? accumulator (frame dt now a))%float = true /\
  ((accumulator (frame dt now a) <? fixedTimestep)%float = true \/
   (stepsTaken dt a = 5%nat /\
    (fixedTimestep <=? accumulator (frame dt now a))%float = true)).
Proof.
  intros Hacc Hdt. rewrite frame_accumulator.
  assert (Hnn : (0 <=? loop_accumulator
             (advance stepWorld fixedTimestep (world a, calls a) (accumulator a) dt))%float
           = true).
  { unfold advance.
    apply (stepLoop_accumulator stepWorld fixedTimestep (fun x => (0 <=? x)%float = true)).
    - intros x Hx. apply float_sub_nonneg; [reflexivity|reflexivity|exact Hx].
    - apply float_add_nonneg; assumption. }
  split; [exact Hnn|].
  destruct (advance_exit stepWorld fixedTimestep (world a, calls a) (accumulator a) dt)
    as (_ & _ & [Hex|[H5 Hex]]).
  - left. apply float_leb_false_ltb; [reflexivity|exact Hnn|exact Hex].
  - right. split; [exact H5|exact Hex].
Qed.

Lemma run_accumulator_nonneg evs : forall a,
  Forall nonnegDelta evs -> (0 <=? accumulator a)%float = true ->
  (0 <=? accumulator (run evs a))%float = true.
Proof.
  induction evs as [|e evs IH]; intros a Hevs Ha; [exact Ha|].
  apply Forall_cons in Hevs as [He Hevs]. simpl. apply IH; [exact Hevs|].
  destruct e as [r1 r2|dt now]; simpl.
  - rewrite spawnCube_accumulator. exact Ha.
  - apply frame_accumulator_bounds; assumption.
Qed.

Lemma setup_accumulator now : accumulator (setup now) = 0%float.
Proof.
  open_setup. reflexivity.
Qed.

(** C1 (as amended).  For samples [dt_i >= 0]: on the numbers of the code the
    accumulator is not negative after any invocation, and an invocation
    leaves it in [[0, FIXED_STEP)] unless it ran into the cap of 5 steps with
    a step still due; on exact rationals the steps taken over the sequence
    number [floor (total / FIXED_STEP)] less the whole steps the accumulator
    still holds, so exactly [floor (total / FIXED_STEP)] when the last
    invocation ended below the step size. *)
Theorem accumulator_invariants :
  (forall evs (t0 : JS.number), Forall nonnegDelta evs ->
     let a := run evs (setup t0) in
     (0 <=? accumulator a)%float = true /\
     forall dt now : JS.number, (0 <=? dt)%float = true ->
       (0 <=? accumulator (frame dt now a))%float = true /\
       ((accumulator (frame dt now a) <? fixedTimestep)%float = true \/
        (stepsTaken dt a = 5%nat /\
         (fixedTimestep <=? accumulator (frame dt now a))%float = true))) /\
  (forall (FIXED_STEP : Q) (dts : list Q) (w : RAPIER.World),
     (0 < FIXED_STEP)%Q -> Forall (Qle 0) dts ->
     let ls := advances RAPIER.step FIXED_STEP w 0%Q dts in
     let acc := accumulatorAfter 0%Q ls in
     Z.of_nat (totalSteps ls) =
       (Qfloor (Qsum dts / FIXED_STEP) - Qfloor (acc / FIXED_STEP))%Z /\
     (0 <= acc)%Q /\
     ((acc < FIXED_STEP)%Q -> Z.of_nat (totalSteps ls) = Qfloor (Qsum dts / FIXED_STEP)) /\
     Forall (fun l => (0 <= loop_accumulator l)%Q /\
                      ((loop_accumulator l < FIXED_STEP)%Q \/
                       (loop_steps l = 5%nat /\ (FIXED_STEP <= loop_accumulator l)%Q))) ls).
Proof.
  split.
  - intros evs t0 Hevs a.
    assert (Ha : (0 <=? accumulator a)%float = true).
    { apply run_accumulator_nonneg; [exact Hevs|]. rewrite setup_accumulator. reflexivity. }
    split; [exact Ha|]. intros dt now Hdt.
    apply frame_accumulator_bounds; assumption.
  - intros F dts w HF Hdts ls acc.
    destruct (exact_count RAPIER.step F HF dts w Hdts) as [Hcount Hlt].
    destruct (exact_advances RAPIER.step F dts w 0%Q (Qle_refl 0) Hdts) as (_ & Hnn & Hall).
    repeat split; assumption.
Qed.

Lemma stepsTaken_le dt a : stepsTaken dt a <= 5.
Proof.
  unfold stepsTaken.
  apply (advance_exit stepWorld fixedTimestep (world a, calls a) (accumulator a) dt).
Qed.

Lemma frame_stepCalls dt now a :
  stepCalls (calls (frame dt now a)) = stepCalls (calls a) + stepsTaken dt a.
Proof.
  rewrite frame_calls, !stepCalls_app, stepCalls_replicate, stepCalls_copies.
  change (stepCalls [CallRender (scene (frame dt now a))]) with 0. lia.
Qed.

Lemma frame_world dt now a :
  world (frame dt now a) = Nat.iter (stepsTaken dt a) RAPIER.step (world a).
Proof. rewrite (frame_unfold dt now a). reflexivity. Qed.

Lemma setup_calls now : calls (setup now) = [].
Proof.
  open_setup. reflexivity.
Qed.

(** C2.  An invocation of [frame] makes at most 5 calls of [world.step()],
    whatever the accumulator holds on entry and whatever the clock returns. *)
Theorem frame_step_cap a (dt now : JS.number) :
  stepsTaken dt a <= 5 /\
  stepCalls (calls (frame dt now a)) = stepCalls (calls a) + stepsTaken dt a /\
  world (frame dt now a) = Nat.iter (stepsTaken dt a) RAPIER.step (world a).
Proof.
  split; [apply stepsTaken_le|]. split; [apply frame_stepCalls|apply frame_world].
Qed.


(** C5.  In every state the program reaches, [frame] first steps the world
    (0 to 5 times), then gives the mesh of each pair the translation of the
    pair's body as its position and the rotation of the body as its
    quaternion, both as they are after these steps, once per pair and
    whatever the number of steps, and only then renders the scene.  The mesh
    keeps its kind and shadow flags, and objects no pair refers to are left
    as they are. *)
Theorem frame_syncs_then_renders evs (t0 dt now : JS.number) :
  let a := run evs (setup t0) in
  let a' := frame dt now a in
  let k := stepsTaken dt a in
  world a' = Nat.iter k RAPIER.step (world a) /\
  calls a' = calls a ++ replicate k CallStep ++ (CallCopy <$> cubes a)
                     ++ [CallRender (scene a')] /\
  NoDup (cubes a) /\
  (forall c, c ∈ cubes a ->
     exists o o', scene a !! mesh c = Some o /\ scene a' !! mesh c = Some o' /\
       THREE.position o' = RAPIER.translation (rigidBody c) (world a') /\
       THREE.quaternion o' = RAPIER.rotation (rigidBody c) (world a') /\
       THREE.kind o' = THREE.kind o /\
       THREE.castShadow o' = THREE.castShadow o /\
       THREE.receiveShadow o' = THREE.receiveShadow o) /\
  (forall i, i ∉ mesh <$> cubes a -> scene a' !! i = scene a !! i).
Proof.
  cbv zeta. set (a := run evs (setup t0)).
  assert (Hwf : meshesInScene a) by apply meshesInScene_run, meshesInScene_setup.
  destruct Hwf as [Hnd Hall].
  split; [rewrite (frame_unfold dt now a); reflexivity|].
  split; [apply frame_calls|].
  split; [eapply NoDup_fmap_1; exact Hnd|].
  split.
  - intros c Hin. rewrite Forall_forall in Hall. specialize (Hall c Hin).
    destruct (lookup_lt_is_Some_2 (scene a) (mesh c) Hall) as [o Ho].
    exists o.
    exists (THREE.copyTransform
              (RAPIER.translation (rigidBody c) (world (frame dt now a)))
              (RAPIER.rotation (rigidBody c) (world (frame dt now a))) o).
    split; [exact Ho|]. split; [|repeat split].
    rewrite (frame_unfold dt now a). cbv zeta. simpl.
    rewrite (syncCubes_lookup_mesh _ _ Hnd c _ Hin). simpl. rewrite Ho. reflexivity.
  - intros i Hi. rewrite (frame_unfold dt now a). cbv zeta. simpl.
    apply syncCubes_lookup_other, Hi.
Qed.

(** C6.  Syncing twice against the same world, with no step in between,
    leaves every object of the scene as the first sync left it. *)
Theorem sync_idempotent (w : RAPIER.World) (cs : list Cube)
    (sl : THREE.Scene * list Call) :
  fst (syncCubes w cs (syncCubes w cs sl)) = fst (syncCubes w cs sl).
Proof.
  apply list_eq. intros i.
  destruct (syncCubes_lookup w cs i) as [H|(c & _ & _ & H)].
  - rewrite !H. reflexivity.
  - rewrite (H (syncCubes w cs sl)), H.
    destruct (fst sl !! i); reflexivity.
Qed.

(** C7.  From the initial state, an invocation with [dt = 0.05] takes 3
    steps and leaves about 0.002 in the accumulator: the double
    0.0020000000000000018. *)
Theorem frame_scenario_0_05 (t0 now : JS.number) :
  let a' := frame 0.05 now (setup t0) in
  stepsTaken 0.05 (setup t0) = 3 /\
  stepCalls (calls a') = 3 /\
  accumulator a' = 0.0020000000000000018%float /\
  (abs (accumulator a' - 0.002) <? 1e-17)%float = true.
Proof.
  cbv zeta.
  assert (H3 : stepsTaken 0.05 (setup t0) = 3).
  { unfold stepsTaken. rewrite setup_accumulator. vm_compute. reflexivity. }
  assert (Hacc : accumulator (frame 0.05 now (setup t0)) = 0.0020000000000000018%float).
  { rewrite frame_accumulator, setup_accumulator. vm_compute. reflexivity. }
  split; [exact H3|]. split.
  - rewrite frame_stepCalls, setup_calls, H3. reflexivity.
  - split; [exact Hacc|]. rewrite Hacc. reflexivity.
Qed.

(** C8 (as amended).  From the initial state, an invocation with [dt = 0.2]
    takes 5 steps, the cap, and leaves about 0.12 in the accumulator: the
    double 0.11999999999999995, which is 7 step sizes and more, so the
    simulation is behind the clock. *)
Theorem frame_scenario_0_2 (t0 now : JS.number) :
  let a' := frame 0.2 now (setup t0) in
  stepsTaken 0.2 (setup t0) = 5 /\
  stepCalls (calls a') = 5 /\
  accumulator a' = 0.11999999999999995%float /\
  (abs (accumulator a' - 0.12) <? 1e-16)%float = true /\
  (fixedTimestep <=? accumulator a')%float = true.
Proof.
  cbv zeta.
  assert (H5 : stepsTaken 0.2 (setup t0) = 5).
  { unfold stepsTaken. rewrite setup_accumulator. vm_compute. reflexivity. }
  assert (Hacc : accumulator (frame 0.2 now (setup t0)) = 0.11999999999999995%float).
  { rewrite frame_accumulator, setup_accumulator. vm_compute. reflexivity. }
  split; [exact H5|]. split.
  - rewrite frame_stepCalls, setup_calls, H5. reflexivity.
  - rewrite Hacc. repeat split.
Qed.

Lemma handle_cubes a (e : Event) :
  cubes (handle a e) = cubes a \/ exists c, cubes (handle a e) = cubes a ++ [c].
Proof.
  destruct e as [r1 r2|dt now]; simpl.
  - destruct (spawnCube_cases r1 r2 a) as [[_ ->]|(_ & body & w' & Hc & _)].
    + left. reflexivity.
    + right. eexists. exact Hc.
  - left. apply frame_cubes.
Qed.

Lemma run_cubes_prefix evs : forall a, cubes a `prefix_of` cubes (run evs a).
Proof.
  induction evs as [|e evs IH]; intros a; [reflexivity|].
  simpl. etransitivity; [|apply IH].
  destruct (handle_cubes a e) as [->|[c ->]]; [reflexivity|].
  apply prefix_app_r. reflexivity.
Qed.

Lemma handle_cubesAmount a (e : Event) :
  cubesAmount a = length (cubes a) ->
  cubesAmount (handle a e) = length (cubes (handle a e)).
Proof.
  intros Ha. destruct e as [r1 r2|dt now]; simpl.
  - destruct (spawnCube_cases r1 r2 a) as [[_ ->]|(_ & body & w' & Hc & _ & _ & Hn & _)].
    + exact Ha.
    + rewrite Hn, Hc, length_app. simpl. lia.
  - rewrite (frame_unfold dt now a). exact Ha.
Qed.

Lemma run_cubesAmount evs : forall a,
  cubesAmount a = length (cubes a) ->
  cubesAmount (run evs a) = length (cubes (run evs a)).
Proof.
  induction evs as [|e evs IH]; intros a Ha; [exact Ha|].
  simpl. apply IH, handle_cubesAmount, Ha.
Qed.

Lemma setup_cubesAmount now : cubesAmount (setup now) = length (cubes (setup now)).
Proof.
  open_setup. reflexivity.
Qed.

(** C9.  Over any run of the two callbacks, [cubes] only grows at its end:
    what it held stays, in place and in order; a callback leaves it as it is
    or appends one pair.  The displayed count is its length, and never
    decreases. *)
Theorem cubes_append_only (t0 : JS.number) (evs1 evs2 : list Event) :
  let a1 := run evs1 (setup t0) in
  let a2 := run evs2 a1 in
  cubes a1 `prefix_of` cubes a2 /\
  cubesAmount a1 = length (cubes a1) /\
  cubesAmount a1 <= cubesAmount a2 /\
  forall e : Event,
    cubes (handle a1 e) = cubes a1 \/ exists c, cubes (handle a1 e) = cubes a1 ++ [c].
Proof.
  cbv zeta.
  assert (H1 : cubesAmount (run evs1 (setup t0)) = length (cubes (run evs1 (setup t0))))
    by apply run_cubesAmount, setup_cubesAmount.
  pose proof (run_cubes_prefix evs2 (run evs1 (setup t0))) as Hp.
  split; [exact Hp|]. split; [exact H1|]. split.
  - rewrite (run_cubesAmount evs2 _ H1), H1. apply prefix_length, Hp.
  - apply handle_cubes.
Qed.

(** C10.  When the estimate is at most 50 (or, more generally, the test
    [fps > 50] of the gate is false, as it also is for NaN), [spawnCube]
    returns the state it was given: scene, world, pairs, displayed count and
    the record of library calls are what they were. *)
Theorem spawnCube_gate_closed a (r1 r2 : JS.number) :
  (FPSTracker.fps (fpsTracker a) <=? 50)%float = true \/
  (50 <? FPSTracker.fps (fpsTracker a))%float = false ->
  spawnCube r1 r2 a = a /\
  scene (spawnCube r1 r2 a) = scene a /\
  world (spawnCube r1 r2 a) = world a /\
  cubes (spawnCube r1 r2 a) = cubes a /\
  cubesAmount (spawnCube r1 r2 a) = cubesAmount a /\
  calls (spawnCube r1 r2 a) = calls a.
Proof.
  intros Hgate.
  assert (Hfalse : (50 <? FPSTracker.fps (fpsTracker a))%float = false).
  { destruct Hgate as [Hle|Hlt]; [apply float_leb_ltb_false, Hle|exact Hlt]. }
  unfold spawnCube. rewrite Hfalse. repeat split.
Qed.

End Properties.

(** ** The statements at concrete inputs *)

(** C1, witness: a run with samples 0.05 and 0.2, and the exact loop on
    1/20 and 1/5 with step 2/125. *)
Lemma accumulator_invariants_witness :
  (0 <=? accumulator (run [Frame 0.05 100; Spawn 0.5 0.25; Frame 0.2 300]
                          (setup (engine := Falling.engine) 0)))%float = true /\
  Z.of_nat (totalSteps (advances (RAPIER.step (Engine := Falling.engine)) (2 # 125)
                                 (Falling.mkWorld [] []) 0%Q [1 # 20; 1 # 5]%Q)) =
  (Qfloor (Qsum [1 # 20; 1 # 5]%Q / (2 # 125)) -
   Qfloor (accumulatorAfter 0%Q
             (advances (RAPIER.step (Engine := Falling.engine)) (2 # 125)
                       (Falling.mkWorld [] []) 0%Q [1 # 20; 1 # 5]%Q) / (2 # 125)))%Z.
Proof.
  split.
  - apply (proj1 (accumulator_invariants (engine := Falling.engine))
             [Frame 0.05 100; Spawn 0.5 0.25; Frame 0.2 300] 0%float).
    repeat constructor.
  - apply (proj2 (accumulator_invariants (engine := Falling.engine))
             (2 # 125) [1 # 20; 1 # 5]%Q (Falling.mkWorld [] [])).
    + reflexivity.
    + repeat constructor; discriminate.
Defined.

(** C1, counterexample: with samples 0.004, 0.04 and 0.004 no invocation
    comes near the cap (0, 2 and 0 steps) and the accumulator ends below the
    step size, at 0.015999999999999997; 2 steps are taken, while the samples
    sum to 0.048 and [floor (0.048 / 0.016) = 3], on the exact values of the
    doubles and in double arithmetic alike.  [frame] takes these 2 steps. *)
Lemma stepCountIdentity_fails :
  ~ stepCountIdentity [0.004; 0.04; 0.004]%float /\
  totalSteps (advances (fun u : unit => u) fixedTimestep tt 0%float
                       [0.004; 0.04; 0.004]%float) = 2 /\
  Qfloor (Qsum (JS.toQ <$> [0.004; 0.04; 0.004]%float) / JS.toQ fixedTimestep) = 3%Z /\
  ((0.004 + 0.04 + 0.004) / fixedTimestep)%float = 3%float /\
  let a := run [Frame 0.004 4; Frame 0.04 44; Frame 0.004 48]
               (setup (engine := Falling.engine) 0) in
  stepCalls (calls a) = 2 /\ accumulator a = 0.015999999999999997%float /\
  (accumulator a <? fixedTimestep)%float = true.
Proof.
  split; [|repeat split; vm_compute; reflexivity].
  unfold stepCountIdentity. intros H.
  assert (Hcap : Forall (fun l : @LoopState JS.number unit => loop_steps l < 5)
                   (advances (fun u : unit => u) fixedTimestep tt 0%float
                             [0.004; 0.04; 0.004]%float)).
  { vm_compute advances. repeat constructor. }
  specialize (H Hcap). vm_compute in H. discriminate H.
Qed.

(** C3, witness: a tracker with 30 frames in a window opened at 0 is
    updated at 514.6 ms.  At least 500 ms have elapsed, so the test holds and
    the window is closed at 31 frames: the quotient is 60.240963855421683
    and the estimate 60.  A fresh tracker called at 100, 250 and 499 ms
    returns its first estimate, 0, each time. *)
Lemma FPSTracker_update_witness :
  (0 + 500 <=? 514.6)%float = true /\
  (31 * 1000 / (514.6 - 0))%float = 60.240963855421683%float /\
  fst (FPSTracker.update 514.6 (FPSTracker.mk 0 30 0)) = 60%float /\
  (JS.toQ (fst (FPSTracker.update 514.6 (FPSTracker.mk 0 30 0))) == 60)%Q /\
  snd (FPSTracker.update 514.6 (FPSTracker.mk 0 30 0)) = FPSTracker.mk 60 0 514.6 /\
  (500 - (0 + 500) * (1 # 4503599627370496) < JS.toQ 514.6 - 0)%Q /\
  fst (FPSTracker.updates [100; 250; 499]%float (FPSTracker.new 0)) = [0; 0; 0]%float.
Proof.
  destruct (FPSTracker_update_contract (FPSTracker.mk 0 30 0) 514.6)
    as (Hyes & _ & _ & Helapsed).
  destruct (Helapsed eq_refl eq_refl) as (Htest & Hlow).
  assert (Ht : (0 + 500 <=? 514.6)%float = true).
  { apply Htest. vm_compute. discriminate. }
  destruct (Hyes Ht) as (Hfps & Hspec & _ & Hlast & Hcount & Hret).
  destruct (proj1 (proj2 (proj2 (FPSTracker_update_contract (FPSTracker.new 0) 0)))
              [100; 250; 499]%float) as (Hsame & _).
  { repeat constructor. }
  split; [exact Ht|].
  split; [vm_compute; reflexivity|]. split; [|split; [|split; [|split]]].
  - rewrite Hret, Hfps. vm_compute. reflexivity.
  - rewrite Hret, (Hspec eq_refl). vm_compute. reflexivity.
  - destruct (snd (FPSTracker.update 514.6 (FPSTracker.mk 0 30 0))) as [f n t].
    simpl in Hfps, Hlast, Hcount. rewrite Hfps, Hlast, Hcount. vm_compute. reflexivity.
  - exact (Hlow eq_refl Ht).
  - rewrite Hsame. reflexivity.
Defined.

(** C3, counterexample: with the window opened at 567.225 and the call made
    at 1067.225, less than 500 ms have elapsed, on doubles
    (499.99999999999989) and on the exact values of the two times alike; yet
    the sum 567.225 + 500 rounds to the double 1067.225, the test holds, and
    the call replaces the estimate 0 by 60 and opens a new window. *)
Lemma FPSTracker_update_recomputes_before_500ms :
  (1067.225 - 567.225)%float = 499.99999999999989%float /\
  (1067.225 - 567.225 <? 500)%float = true /\
  (JS.toQ 1067.225 - JS.toQ 567.225 < 500)%Q /\
  fst (FPSTracker.update 1067.225 (FPSTracker.mk 0 29 567.225)) = 60%float /\
  fst (FPSTracker.update 1067.225 (FPSTracker.mk 0 29 567.225))
    <> FPSTracker.fps (FPSTracker.mk 0 29 567.225) /\
  snd (FPSTracker.update 1067.225 (FPSTracker.mk 0 29 567.225))
    = FPSTracker.mk 60 0 1067.225.
Proof.
  repeat split; try (vm_compute; reflexivity).
  intros E. apply (f_equal (fun v => (v =? 0)%float)) in E. vm_compute in E.
  discriminate E.
Qed.


(** C5, witness: 31 frames bring the estimate to 60 and a spawn tick adds
    a cube at (1.5, 15, 0.75); a frame with a sample of 0.04 then takes 2
    steps, in which the body falls to 14.5, and leaves the mesh of the cube,
    object 3 of the scene, at (1.5, 14.5, 0.75) with the rotation of the
    body. *)
Lemma frame_syncs_then_renders_witness :
  cubes (run (Falling.steadyFrames 31 ++ [Spawn 0.5 0.25])
             (setup (engine := Falling.engine) 0))
    = [mkCube (engine := Falling.engine) 3 1%nat] /\
  stepsTaken 0.04 (run (Falling.steadyFrames 31 ++ [Spawn 0.5 0.25])
                       (setup (engine := Falling.engine) 0)) = 2 /\
  THREE.position <$>
    scene (run (Falling.steadyFrames 31 ++ [Spawn 0.5 0.25])
               (setup (engine := Falling.engine) 0)) !! 3
    = Some (THREE.mkVector3 0 0 0) /\
  THREE.position <$>
    scene (frame 0.04 530 (run (Falling.steadyFrames 31 ++ [Spawn 0.5 0.25])
                               (setup (engine := Falling.engine) 0))) !! 3
    = Some (THREE.mkVector3 1.5 14.5 0.75) /\
  THREE.quaternion <$>
    scene (frame 0.04 530 (run (Falling.steadyFrames 31 ++ [Spawn 0.5 0.25])
                               (setup (engine := Falling.engine) 0))) !! 3
    = Some (THREE.mkQuaternion 0 0 0 1).
Proof.
  assert (Hc : cubes (run (Falling.steadyFrames 31 ++ [Spawn 0.5 0.25])
                          (setup (engine := Falling.engine) 0))
               = [mkCube (engine := Falling.engine) 3 1%nat])
    by (vm_compute; reflexivity).
  destruct (frame_syncs_then_renders (engine := Falling.engine)
              (Falling.steadyFrames 31 ++ [Spawn 0.5 0.25]) 0 0.04 530)
    as (_ & _ & _ & Hsync & _).
  destruct (Hsync (mkCube (engine := Falling.engine) 3 1%nat))
    as (o & o' & _ & Ho' & Hpos & Hquat & _).
  { rewrite Hc. left. }
  cbn [mesh rigidBody] in Ho', Hpos, Hquat.
  split; [exact Hc|]. split; [vm_compute; reflexivity|].
  split; [vm_compute; reflexivity|].
  rewrite Ho'. cbn [fmap option_fmap option_map]. rewrite Hpos, Hquat.
  split; vm_compute; reflexivity.
Defined.

(** C8, counterexample: the accumulator is left at 0.11999999999999995,
    which is neither the double 0.12 nor what [0.2 - 5 * 0.016] evaluates
    to, 0.12000000000000001. *)
Lemma frame_scenario_0_2_not_exact :
  let a' := frame 0.2 200 (setup (engine := Falling.engine) 0) in
  stepsTaken 0.2 (setup (engine := Falling.engine) 0) = 5 /\
  accumulator a' <> 0.12%float /\
  accumulator a' <> (0.2 - 5 * 0.016)%float /\
  (accumulator a' <? 0.12)%float = true.
Proof.
  cbv zeta. split; [vm_compute; reflexivity|]. split; [|split].
  - intros E. apply (f_equal (fun v => (v =? 0.12)%float)) in E.
    vm_compute in E. discriminate E.
  - intros E. apply (f_equal (fun v => (v =? 0.2 - 5 * 0.016)%float)) in E.
    vm_compute in E. discriminate E.
  - vm_compute. reflexivity.
Qed.

(** C10, witness: the scenario of the specification, an estimate of 45. *)
Lemma spawnCube_gate_closed_witness :
  spawnCube 0.5 0.25 (Falling.appWithFps 45) = Falling.appWithFps 45.
Proof.
  apply (spawnCube_gate_closed (Falling.appWithFps 45) 0.5 0.25).
  left. reflexivity.
Defined.

(** ** Runs of the whole program *)

(** [Math.round] rounds halves up. *)
Example Math_round_half_up :
  (JS.Math_round 2.5 = 3 /\ JS.Math_round (-2.5) = -2 /\
   JS.Math_round 59.6 = 60 /\ JS.Math_round 0.49999999999999994 = 0 /\
   JS.Math_round (-0.2) = neg_zero)%float.
Proof. repeat split; vm_compute; reflexivity. Qed.

(** A backlog of 1000 steps, or an infinite one, still gives 5 steps. *)
Example frame_cap_large_backlog :
  stepsTaken 16 (setup (engine := Falling.engine) 0) = 5 /\
  stepsTaken infinity (setup (engine := Falling.engine) 0) = 5.
Proof. split; vm_compute; reflexivity. Qed.

(** 31 frames 16.6 ms apart bring the estimate to 60; the spawner then adds
    a cube at height 15; three more frames take 1, 0 and 2 steps, after
    which the mesh of the cube is where its body is, 0.75 lower. *)
Example run_spawn_and_fall :
  let a := run (Falling.steadyFrames 31 ++
                [Spawn 0.5 0.25; Frame 0.016 530; Frame 0 531; Frame 0.04 570])
               (setup (engine := Falling.engine) 0) in
  FPSTracker.fps (fpsTracker a) = 60%float /\
  cubes a = [mkCube (engine := Falling.engine) 3 1%nat] /\
  cubesAmount a = 1 /\
  THREE.position <$> scene a !! 3 = Some (THREE.mkVector3 1.5 14.25 0.75) /\
  RAPIER.translation (Engine := Falling.engine) 1%nat (world a) = THREE.mkVector3 1.5 14.25 0.75.
Proof. cbv zeta. repeat split; vm_compute; reflexivity. Qed.

(** * More properties of the code *)

(** ** The tracker over a run *)

Lemma update_fst_fps (now : JS.number) (tr : FPSTracker.t) :
  fst (FPSTracker.update now tr) = FPSTracker.fps (snd (FPSTracker.update now tr)).
Proof. unfold FPSTracker.update. destruct (_ <=? _)%float; reflexivity. Qed.

Lemma updates_app (ts1 ts2 : list JS.number) : forall tr : FPSTracker.t,
  snd (FPSTracker.updates (ts1 ++ ts2) tr) =
  snd (FPSTracker.updates ts2 (snd (FPSTracker.updates ts1 tr))).
Proof.
  induction ts1 as [|t ts1 IH]; intros tr; [reflexivity|].
  simpl. destruct (FPSTracker.update t tr) as [r tr1].
  specialize (IH tr1).
  destruct (FPSTracker.updates (ts1 ++ ts2) tr1) as [rs tr2].
  destruct (FPSTracker.updates ts1 tr1) as [rs' tr2']. simpl in *.
  exact IH.
Qed.

Section MoreProperties.
Context {engine : RAPIER.Engine}.

Implicit Types (a : App) (c : Cube) (evs : list Event).

Lemma frame_fpsTracker dt now a :
  fpsTracker (frame dt now a) = snd (FPSTracker.update now (fpsTracker a)).
Proof. rewrite (frame_unfold dt now a). reflexivity. Qed.

Lemma frame_fps dt now a :
  fps (frame dt now a) = fst (FPSTracker.update now (fpsTracker a)).
Proof. rewrite (frame_unfold dt now a). reflexivity. Qed.

Lemma spawnCube_fpsTracker r1 r2 a : fpsTracker (spawnCube r1 r2 a) = fpsTracker a.
Proof.
  destruct (spawnCube_cases r1 r2 a) as [[_ ->]|(_ & b & w' & _ & _ & _ & _ & H & _)];
    [reflexivity|exact H].
Qed.

Lemma spawnCube_fps r1 r2 a : fps (spawnCube r1 r2 a) = fps a.
Proof.
  unfold spawnCube. destruct (50 <? _)%float; [|reflexivity].
  destruct (RAPIER.createRigidBody _ _) as [body w1].
  destruct (RAPIER.createCollider _ body w1) as [col w2]. reflexivity.
Qed.

Lemma run_fpsTracker evs : forall a,
  fpsTracker (run evs a) = snd (FPSTracker.updates (frameTimes evs) (fpsTracker a)).
Proof.
  induction evs as [|e evs IH]; intros a; [reflexivity|].
  simpl run. rewrite IH. destruct e as [r1 r2|dt now]; simpl handle.
  - rewrite spawnCube_fpsTracker. reflexivity.
  - rewrite frame_fpsTracker.
    change (frameTimes (Frame dt now :: evs)) with (now :: frameTimes evs).
    simpl. destruct (FPSTracker.update now (fpsTracker a)) as [r tr1]. cbn [snd].
    destruct (FPSTracker.updates (frameTimes evs) tr1) as [rs tr2]. reflexivity.
Qed.

Lemma setup_fpsTracker now : fpsTracker (setup now) = FPSTracker.new now.
Proof. open_setup. reflexivity. Qed.

Lemma setup_fps now : fps (setup now) = 0%float.
Proof. open_setup. reflexivity. Qed.

Lemma run_fps_estimate evs : forall a,
  fps a = FPSTracker.fps (fpsTracker a) ->
  fps (run evs a) = FPSTracker.fps (fpsTracker (run evs a)).
Proof.
  induction evs as [|e evs IH]; intros a Ha; [exact Ha|].
  simpl. apply IH. destruct e as [r1 r2|dt now]; simpl.
  - rewrite spawnCube_fps, spawnCube_fpsTracker. exact Ha.
  - rewrite frame_fps, frame_fpsTracker. apply update_fst_fps.
Qed.

(** X1.  Over any run of the two callbacks the tracker is in the state that
    successive calls of [update] at the times of the frames, and nothing
    else, bring a fresh tracker to; the FPS shown is the estimate the
    tracker holds. *)
Theorem tracker_follows_frames (t0 : JS.number) evs :
  let a := run evs (setup t0) in
  fpsTracker a = snd (FPSTracker.updates (frameTimes evs) (FPSTracker.new t0)) /\
  fps a = FPSTracker.fps (fpsTracker a).
Proof.
  cbv zeta. split.
  - rewrite run_fpsTracker, setup_fpsTracker. reflexivity.
  - apply run_fps_estimate. rewrite setup_fps, setup_fpsTracker. reflexivity.
Qed.

(** *** The first measurement window *)

Lemma run_first_window evs (t0 : JS.number) : forall a,
  Forall (inFirstWindow t0) evs ->
  FPSTracker.fps (fpsTracker a) = 0%float ->
  FPSTracker.lastTime (fpsTracker a) = t0 ->
  cubes a = [] ->
  cubes (run evs a) = [] /\ cubesAmount (run evs a) = cubesAmount a /\
  scene (run evs a) = scene a /\ FPSTracker.fps (fpsTracker (run evs a)) = 0%float.
Proof.
  induction evs as [|e evs IH]; intros a Hevs Hfps Hlast Hcubes; [auto|].
  apply Forall_cons in Hevs as [He Hevs]. simpl run.
  destruct e as [r1 r2|dt now]; simpl handle.
  - assert (Hsame : spawnCube r1 r2 a = a).
    { unfold spawnCube. rewrite Hfps. reflexivity. }
    rewrite Hsame. apply IH; assumption.
  - simpl in He.
    assert (Htr : fpsTracker (frame dt now a) =
              FPSTracker.mk 0 (FPSTracker.frameCount (fpsTracker a) + 1) t0).
    { rewrite frame_fpsTracker. unfold FPSTracker.update. rewrite Hlast, He, Hfps.
      reflexivity. }
    assert (Hsc : scene (frame dt now a) = scene a).
    { rewrite (frame_unfold dt now a). cbv zeta. simpl. rewrite Hcubes. reflexivity. }
    assert (Hn : cubesAmount (frame dt now a) = cubesAmount a).
    { rewrite (frame_unfold dt now a). reflexivity. }
    destruct (IH (frame dt now a) Hevs) as (H1 & H2 & H3 & H4).
    + rewrite Htr. reflexivity.
    + rewrite Htr. reflexivity.
    + rewrite frame_cubes. exact Hcubes.
    + rewrite H2, H3, Hn, Hsc. auto.
Qed.

(** X2.  While every frame falls inside the first measurement window of the
    tracker (less than 500 ms after its construction, by the test of
    [update]), the estimate is still 0 and no spawn tick adds a cube: the
    pairs, the displayed count and the scene are those of the setup. *)
Theorem no_spawn_in_first_window (t0 : JS.number) evs :
  Forall (inFirstWindow t0) evs ->
  let a := run evs (setup t0) in
  cubes a = [] /\ cubesAmount a = 0 /\ scene a = scene (setup t0) /\
  FPSTracker.fps (fpsTracker a) = 0%float.
Proof.
  intros Hevs. cbv zeta.
  destruct (run_first_window evs t0 (setup t0) Hevs) as (H1 & H2 & H3 & H4);
    try (open_setup; reflexivity).
  rewrite H2. repeat split; try assumption. open_setup. reflexivity.
Qed.

(** *** The layout of the scene *)

(** A sync whose pairs all refer past a prefix of the scene leaves the
    prefix alone, and keeps what [copyTransform] keeps of the rest. *)
Lemma syncCubes_app_r (w : RAPIER.World) (P : THREE.Object3D -> Prop) cs :
  (forall v q o, P o -> P (THREE.copyTransform v q o)) ->
  forall (l1 l2 : THREE.Scene) (log : list Call),
  Forall (fun c => length l1 <= mesh c) cs -> Forall P l2 ->
  exists l2', fst (syncCubes w cs (l1 ++ l2, log)) = l1 ++ l2' /\
              length l2' = length l2 /\ Forall P l2'.
Proof.
  intros HP. induction cs as [|c cs IH]; intros l1 l2 log Hcs Hl2.
  - exists l2. auto.
  - apply Forall_cons in Hcs as [Hc Hcs]. rewrite syncCubes_cons.
    unfold syncCube at 1. cbn [fst snd].
    replace (mesh c) with (length l1 + (mesh c - length l1)) by lia.
    rewrite alter_app_r.
    destruct (IH l1 (alter (THREE.copyTransform (RAPIER.translation (rigidBody c) w)
                                               (RAPIER.rotation (rigidBody c) w))
                           (mesh c - length l1) l2)
                 (log ++ [CallCopy c]) Hcs) as (l2' & E & Hlen & HP').
    + apply Forall_alter; [exact Hl2|]. intros o _ Ho. apply HP, Ho.
    + exists l2'. rewrite length_alter in Hlen. auto.
Qed.

Lemma setup_scene now :
  scene (setup now) =
  [ THREE.new_Object3D THREE.AmbientLight;
    THREE.mkObject3D THREE.DirectionalLight (THREE.mkVector3 10 10 5)
      (THREE.mkQuaternion 0 0 0 1) true false;
    THREE.mkObject3D THREE.GroundMesh (THREE.mkVector3 0 0 0)
      (THREE.mkQuaternion 0 0 0 1) false true ].
Proof. open_setup. reflexivity. Qed.

Lemma setup_cubes now : cubes (setup now) = [].
Proof. open_setup. reflexivity. Qed.

(** X3.  In every state the program reaches, the scene is the two lights
    and the ground exactly as the setup made them, followed by one mesh per
    cube pair, in the order of the pairs: pair [i] refers to object [3 + i],
    and each of these objects is a cube mesh that casts and receives
    shadows.  So no callback moves or alters a light or the ground. *)
Theorem scene_layout (t0 : JS.number) evs :
  let a := run evs (setup t0) in
  exists meshes : THREE.Scene,
    scene a = scene (setup t0) ++ meshes /\
    length (scene (setup t0)) = 3 /\
    length meshes = length (cubes a) /\
    mesh <$> cubes a = seq 3 (length (cubes a)) /\
    Forall (fun o => THREE.kind o = THREE.CubeMesh /\
                     THREE.castShadow o = true /\ THREE.receiveShadow o = true) meshes.
Proof.
  cbv zeta.
  set (P := fun o => THREE.kind o = THREE.CubeMesh /\
                     THREE.castShadow o = true /\ THREE.receiveShadow o = true).
  assert (Hlen0 : length (scene (setup t0)) = 3) by (rewrite setup_scene; reflexivity).
  assert (Hinv : forall a,
    (exists meshes, scene a = scene (setup t0) ++ meshes /\
       length meshes = length (cubes a) /\
       mesh <$> cubes a = seq 3 (length (cubes a)) /\ Forall P meshes) ->
    exists meshes, scene (run evs a) = scene (setup t0) ++ meshes /\
       length meshes = length (cubes (run evs a)) /\
       mesh <$> cubes (run evs a) = seq 3 (length (cubes (run evs a))) /\
       Forall P meshes).
  { induction evs as [|e evs IH]; intros a Ha; [exact Ha|].
    simpl run. apply IH. destruct Ha as (meshes & Hs & Hl & Hm & HP).
    destruct e as [r1 r2|dt now]; simpl handle.
    - destruct (spawnCube_cases r1 r2 a)
        as [[_ ->]|(_ & body & w' & Hc & Hsc & _)]; [exists meshes; auto|].
      exists (meshes ++ [THREE.mkObject3D THREE.CubeMesh (THREE.mkVector3 0 0 0)
                           (THREE.mkQuaternion 0 0 0 1) true true]).
      rewrite Hsc, Hc, Hs, fmap_app, !length_app, Hm, Hlen0, Hl. simpl.
      split; [rewrite app_assoc; reflexivity|]. split; [reflexivity|]. split.
      + rewrite seq_app. simpl. reflexivity.
      + apply Forall_app. split; [exact HP|]. repeat constructor.
    - rewrite frame_cubes, (frame_unfold dt now a). cbv zeta. cbn [scene].
      rewrite Hs.
      destruct (syncCubes_app_r
                  (Nat.iter (stepsTaken dt a) RAPIER.step (world a)) P (cubes a))
        with (l1 := scene (setup t0)) (l2 := meshes)
             (log := calls a ++ replicate (stepsTaken dt a) CallStep)
        as (l2' & E & Hl' & HP').
      + intros v q o Ho. exact Ho.
      + rewrite Hlen0. apply Forall_forall. intros c Hc.
        assert (Hin : mesh c ∈ mesh <$> cubes a) by (apply list_elem_of_fmap_2, Hc).
        rewrite Hm in Hin. apply elem_of_seq in Hin. lia.
      + exact HP.
      + exists l2'. rewrite E. repeat split; auto. lia. }
  destruct (Hinv (setup t0)) as (meshes & H1 & H2 & H3 & H4).
  - exists []. rewrite app_nil_r, setup_cubes. repeat split; constructor.
  - exists meshes. auto.
Qed.

End MoreProperties.

(** ** The stepping loop: what an invocation leaves *)

Section SteppingLoopMore.
Context {num : Type} `{Number num}.
Variable F : num.

(** The accumulator and the number of steps do not depend on what is
    stepped. *)
Lemma stepLoop_world_indep {W1 W2 : Type} (step1 : W1 -> W1) (step2 : W2 -> W2)
    (s1 : @LoopState num W1) (s2 : @LoopState num W2) :
  loop_accumulator s1 = loop_accumulator s2 -> loop_steps s1 = loop_steps s2 ->
  loop_accumulator (stepLoop step1 F s1) = loop_accumulator (stepLoop step2 F s2) /\
  loop_steps (stepLoop step1 F s1) = loop_steps (stepLoop step2 F s2).
Proof.
  remember (5 - loop_steps s1)%nat as n eqn:Hn.
  revert s1 s2 Hn. induction n as [n IH] using lt_wf_ind. intros s1 s2 Hn Hacc Hst.
  rewrite (stepLoop_step step1 F s1), (stepLoop_step step2 F s2).
  assert (Hc : loopCond F s1 = loopCond F s2) by (unfold loopCond; rewrite Hacc, Hst; reflexivity).
  rewrite <- Hc. destruct (loopCond F s1) eqn:Hc1; [|split; assumption].
  apply (IH (5 - loop_steps (loopBody step1 F s1))%nat); simpl.
  - unfold loopCond in Hc1. apply andb_prop in Hc1 as [_ Hc1].
    apply Nat.ltb_lt in Hc1. lia.
  - reflexivity.
  - rewrite Hacc. reflexivity.
  - rewrite Hst. reflexivity.
Qed.

Lemma advances_world_indep {W1 W2 : Type} (step1 : W1 -> W1) (step2 : W2 -> W2)
    (dts : list num) : forall (w1 : W1) (w2 : W2) (acc : num),
  loop_accumulator <$> advances step1 F w1 acc dts =
    loop_accumulator <$> advances step2 F w2 acc dts /\
  loop_steps <$> advances step1 F w1 acc dts = loop_steps <$> advances step2 F w2 acc dts.
Proof.
  induction dts as [|dt dts IH]; intros w1 w2 acc; [split; reflexivity|].
  simpl advances.
  destruct (stepLoop_world_indep step1 step2
              (mkLoop w1 (nadd acc dt) 0) (mkLoop w2 (nadd acc dt) 0) eq_refl eq_refl)
    as [Ha Hs].
  fold (advance step1 F w1 acc dt) in Ha, Hs. fold (advance step2 F w2 acc dt) in Ha, Hs.
  rewrite !fmap_cons, Ha, Hs.
  destruct (IH (loop_world (advance step1 F w1 acc dt))
               (loop_world (advance step2 F w2 acc dt))
               (loop_accumulator (advance step2 F w2 acc dt))) as [IHa IHs].
  rewrite IHa, IHs. split; reflexivity.
Qed.

(** No step is taken exactly when the first test of the loop fails. *)
Lemma advance_no_step {W : Type} (step : W -> W) (w : W) (acc dt : num) :
  loop_steps (advance step F w acc dt) = 0%nat <-> ngeb (nadd acc dt) F = false.
Proof.
  unfold advance. rewrite stepLoop_step. unfold loopCond at 1. simpl.
  rewrite andb_true_r.
  destruct (ngeb (nadd acc dt) F) eqn:Hge.
  - split; [|discriminate]. intros H0.
    destruct (stepLoop_iter step F (loopBody step F (mkLoop w (nadd acc dt) 0)))
      as (Hle & _). simpl in Hle. lia.
  - split; reflexivity.
Qed.

(** While [P] holds of the accumulator, makes the test of the loop succeed
    and survives a subtraction, the loop runs to the cap. *)
Lemma stepLoop_to_cap {W : Type} (step : W -> W) (P : num -> Prop) :
  (forall x, P x -> ngeb x F = true /\ P (nsub x F)) ->
  forall s : @LoopState num W, P (loop_accumulator s) -> (loop_steps s <= 5)%nat ->
  loop_steps (stepLoop step F s) = 5%nat /\ P (loop_accumulator (stepLoop step F s)).
Proof.
  intros HP.
  apply (stepLoop_induction step F (fun s r =>
    P (loop_accumulator s) -> (loop_steps s <= 5)%nat ->
    loop_steps r = 5%nat /\ P (loop_accumulator r))).
  - intros s Hc Hs Hle. split; [|exact Hs].
    unfold loopCond in Hc. rewrite (proj1 (HP _ Hs)) in Hc. simpl in Hc.
    apply Nat.ltb_ge in Hc. lia.
  - intros s r Hc IH Hs Hle. apply IH; simpl.
    + apply HP, Hs.
    + unfold loopCond in Hc. apply andb_prop in Hc as [_ Hc].
      apply Nat.ltb_lt in Hc. lia.
Qed.

End SteppingLoopMore.

(** ** NaN and infinity in the accumulator *)

Section FloatSpecial.
Local Open Scope float_scope.

Lemma SFcompare_refl x : x <> S754_nan -> SFcompare x x = Some Eq.
Proof.
  destruct x as [s|s| |s m e]; try congruence; intros _; simpl.
  - reflexivity.
  - destruct s; reflexivity.
  - rewrite Z.compare_refl, Pos.compare_cont_refl. destruct s; reflexivity.
Qed.

Lemma is_nan_spec x : is_nan x = true <-> Prim2SF x = S754_nan.
Proof.
  unfold is_nan. rewrite FloatAxioms.eqb_spec. unfold SFeqb. split.
  - intros H. destruct (Prim2SF x) as [s|s| |s m e] eqn:E; try reflexivity;
      rewrite SFcompare_refl in H by congruence; discriminate.
  - intros ->. reflexivity.
Qed.

Lemma is_nan_add x y : is_nan x = true \/ is_nan y = true -> is_nan (x + y) = true.
Proof.
  rewrite !is_nan_spec, add_spec. intros [->| ->]; [reflexivity|].
  destruct (Prim2SF x); reflexivity.
Qed.

Lemma is_nan_not_ge x y : is_nan x = true -> (y <=? x) = false.
Proof.
  rewrite is_nan_spec, leb_spec. intros ->. unfold SFleb.
  destruct (Prim2SF y); reflexivity.
Qed.

Lemma Prim2SF_infinity x : Prim2SF x = S754_infinity false -> x = infinity.
Proof. intros H. apply Prim2SF_inj. rewrite H. reflexivity. Qed.

Lemma add_infinity_r x : (0 <=? x) = true -> x + infinity = infinity.
Proof.
  rewrite float_nonneg_spec. intros Hx. apply Prim2SF_infinity. rewrite add_spec.
  change (Prim2SF infinity) with (S754_infinity false).
  destruct (Prim2SF x) as [s|s| |s m e]; try discriminate; try reflexivity.
  destruct s; [discriminate|reflexivity].
Qed.

Lemma add_infinity_l x : (0 <=? x) = true -> infinity + x = infinity.
Proof.
  rewrite float_nonneg_spec. intros Hx. apply Prim2SF_infinity. rewrite add_spec.
  change (Prim2SF infinity) with (S754_infinity false).
  destruct (Prim2SF x) as [s|s| |s m e]; try discriminate; try reflexivity.
  destruct s; [discriminate|reflexivity].
Qed.

End FloatSpecial.

Section SteppingLoopTests.
Context {num : Type} `{Number num} {W : Type}.
Variable step : W -> W.
Variable F : num.

(** Every iteration the loop makes was let in by its test. *)
Lemma stepLoop_tests (s : LoopState) :
  forall j, (j < loop_steps (stepLoop step F s) - loop_steps s)%nat ->
  loopCond F (Nat.iter j (loopBody step F) s) = true.
Proof.
  revert s.
  apply (stepLoop_induction step F (fun s r =>
    forall j, (j < loop_steps r - loop_steps s)%nat ->
    loopCond F (Nat.iter j (loopBody step F) s) = true)).
  - intros s _ j Hj. lia.
  - intros s r Hc IH j Hj. destruct j as [|j]; [exact Hc|].
    rewrite Nat.iter_succ_r. apply IH. simpl. lia.
Qed.

End SteppingLoopTests.

Section MoreFrame.
Context {engine : RAPIER.Engine}.

Implicit Types (a : App) (c : Cube) (evs : list Event).

Lemma frame_accumulator_iter a (dt now : JS.number) :
  accumulator (frame dt now a) =
  Nat.iter (stepsTaken dt a) (fun x => x - fixedTimestep)%float (accumulator a + dt)%float.
Proof.
  rewrite frame_accumulator. unfold stepsTaken.
  destruct (advance_exit stepWorld fixedTimestep (world a, calls a) (accumulator a) dt)
    as (_ & Hr & _).
  rewrite Hr at 1. rewrite iter_loopBody. reflexivity.
Qed.

(** X5.  What the loop of [frame] has done when it is left, on the doubles
    of the code: with [k] the number of steps, the accumulator is the
    accumulated time with the step size subtracted [k] times, one
    subtraction after the other; each of the [k] steps was due (the
    accumulator was at least the step size before it); no step is taken
    exactly when the accumulated time is not at least the step size; and
    unless the cap of 5 was reached the accumulator ends below the step
    size (or is NaN). *)
Theorem frame_loop_postcondition a (dt now : JS.number) :
  let k := stepsTaken dt a in
  let after j := Nat.iter j (fun x => x - fixedTimestep)%float (accumulator a + dt)%float in
  accumulator (frame dt now a) = after k /\
  (forall j, j < k -> (fixedTimestep <=? after j)%float = true) /\
  (k = 0 <-> (fixedTimestep <=? accumulator a + dt)%float = false) /\
  (k < 5 -> (fixedTimestep <=? accumulator (frame dt now a))%float = false).
Proof.
  cbv zeta. split; [apply frame_accumulator_iter|].
  rewrite frame_accumulator. unfold stepsTaken.
  destruct (advance_exit stepWorld fixedTimestep (world a, calls a) (accumulator a) dt)
    as (_ & Hr & Hex).
  set (l := advance stepWorld fixedTimestep (world a, calls a) (accumulator a) dt) in *.
  assert (Hiter : forall j,
    loop_accumulator (Nat.iter j (loopBody stepWorld fixedTimestep)
                        (mkLoop (world a, calls a) (accumulator a + dt)%float 0)) =
    Nat.iter j (fun x => x - fixedTimestep)%float (accumulator a + dt)%float).
  { intros j. rewrite iter_loopBody. reflexivity. }
  split; [|split].
  - intros j Hj. rewrite <- Hiter.
    pose proof (stepLoop_tests stepWorld fixedTimestep
                  (mkLoop (world a, calls a) (accumulator a + dt)%float 0) j) as Ht.
    fold (advance stepWorld fixedTimestep (world a, calls a) (accumulator a) dt) in Ht.
    fold l in Ht. simpl in Ht. rewrite Nat.sub_0_r in Ht. specialize (Ht Hj).
    unfold loopCond in Ht. apply andb_prop in Ht as [Ht _]. exact Ht.
  - exact (advance_no_step fixedTimestep stepWorld (world a, calls a) (accumulator a) dt).
  - intros Hk. destruct Hex as [Hex|[H5 _]]; [exact Hex|lia].
Qed.

Lemma spawnCube_stepCalls r1 r2 a :
  stepCalls (calls (spawnCube r1 r2 a)) = stepCalls (calls a).
Proof.
  unfold spawnCube. destruct (50 <? _)%float; [|reflexivity].
  destruct (RAPIER.createRigidBody _ _) as [body w1].
  destruct (RAPIER.createCollider _ body w1) as [col w2]. simpl.
  rewrite stepCalls_app. change (stepCalls [_; _; _; _; _]) with 0. lia.
Qed.

Lemma frame_nan dt now a :
  is_nan dt = true \/ is_nan (accumulator a) = true ->
  is_nan (accumulator (frame dt now a)) = true /\ stepsTaken dt a = 0.
Proof.
  intros Hnan.
  assert (Hsum : is_nan (accumulator a + dt)%float = true)
    by (apply is_nan_add; tauto).
  assert (H0 : stepsTaken dt a = 0).
  { apply (advance_no_step fixedTimestep stepWorld (world a, calls a) (accumulator a) dt).
    simpl. apply is_nan_not_ge, Hsum. }
  split; [|exact H0].
  rewrite frame_accumulator_iter, H0. exact Hsum.
Qed.

Lemma run_nan evs : forall a,
  is_nan (accumulator a) = true ->
  is_nan (accumulator (run evs a)) = true /\
  stepCalls (calls (run evs a)) = stepCalls (calls a).
Proof.
  induction evs as [|e evs IH]; intros a Ha; [split; [exact Ha|reflexivity]|].
  simpl run. destruct e as [r1 r2|dt now]; simpl handle.
  - destruct (IH (spawnCube r1 r2 a)) as [H1 H2].
    + rewrite spawnCube_accumulator. exact Ha.
    + rewrite H2, spawnCube_stepCalls. split; [exact H1|reflexivity].
  - destruct (frame_nan dt now a (or_intror Ha)) as [Hn H0].
    destruct (IH (frame dt now a) Hn) as [H1 H2].
    rewrite H2, frame_stepCalls, H0. split; [exact H1|lia].
Qed.

(** X6.  A sample that is not a number stalls the simulation for good: the
    frame that receives it takes no step and leaves NaN in the accumulator,
    and in every run that follows, whatever the later samples, the
    accumulator stays NaN and [world.step()] is never called again. *)
Theorem nan_sample_stalls a (dt now : JS.number) evs :
  is_nan dt = true ->
  let a' := run evs (frame dt now a) in
  stepsTaken dt a = 0 /\
  is_nan (accumulator a') = true /\
  stepCalls (calls a') = stepCalls (calls a).
Proof.
  intros Hdt. cbv zeta.
  destruct (frame_nan dt now a (or_introl Hdt)) as [Hn H0].
  destruct (run_nan evs (frame dt now a) Hn) as [H1 H2].
  rewrite H2, frame_stepCalls, H0. repeat split; [exact H1|lia].
Qed.

Lemma frame_infinity dt now a :
  (accumulator a + dt)%float = infinity ->
  accumulator (frame dt now a) = infinity /\ stepsTaken dt a = 5.
Proof.
  intros Hsum. rewrite frame_accumulator. unfold stepsTaken, advance.
  destruct (stepLoop_to_cap fixedTimestep stepWorld (fun x => x = infinity))
    with (s := mkLoop (world a, calls a) (nadd (accumulator a) dt) 0) as [H5 Hinf].
  - intros x ->. split; reflexivity.
  - exact Hsum.
  - simpl. lia.
  - split; assumption.
Qed.

Lemma frameCountOf_cons_frame dt now evs :
  frameCountOf (Frame dt now :: evs) = S (frameCountOf evs).
Proof. reflexivity. Qed.

Lemma frameCountOf_cons_spawn r1 r2 evs :
  frameCountOf (Spawn r1 r2 :: evs) = frameCountOf evs.
Proof. reflexivity. Qed.

Lemma run_infinity evs : forall a,
  accumulator a = infinity -> Forall nonnegDelta evs ->
  accumulator (run evs a) = infinity /\
  stepCalls (calls (run evs a)) = stepCalls (calls a) + 5 * frameCountOf evs.
Proof.
  induction evs as [|e evs IH]; intros a Ha Hevs.
  - split; [exact Ha|]. unfold frameCountOf. simpl. lia.
  - apply Forall_cons in Hevs as [He Hevs]. simpl run.
    destruct e as [r1 r2|dt now]; simpl handle.
    + destruct (IH (spawnCube r1 r2 a)) as [H1 H2]; [|exact Hevs|].
      * rewrite spawnCube_accumulator. exact Ha.
      * rewrite H2, spawnCube_stepCalls, frameCountOf_cons_spawn. auto.
    + simpl in He.
      destruct (frame_infinity dt now a) as [Hinf H5].
      { rewrite Ha. apply add_infinity_l, He. }
      destruct (IH (frame dt now a) Hinf Hevs) as [H1 H2].
      rewrite H2, frame_stepCalls, H5, frameCountOf_cons_frame. split; [exact H1|lia].
Qed.

(** X7.  An infinite sample pins the loop at its cap: if the accumulator is
    not negative when the clock returns +infinity, that frame and every
    later frame whose sample is not negative take exactly 5 steps, and the
    accumulator stays +infinity. *)
Theorem infinite_sample_saturates a (now : JS.number) evs :
  (0 <=? accumulator a)%float = true -> Forall nonnegDelta evs ->
  let a' := run evs (frame infinity now a) in
  accumulator a' = infinity /\
  stepCalls (calls a') = stepCalls (calls a) + 5 * S (frameCountOf evs).
Proof.
  intros Ha Hevs. cbv zeta.
  destruct (frame_infinity infinity now a) as [Hinf H5].
  { apply add_infinity_r, Ha. }
  destruct (run_infinity evs (frame infinity now a) Hinf Hevs) as [H1 H2].
  rewrite H2, frame_stepCalls, H5. split; [exact H1|lia].
Qed.

(** *** The samples decide the steps *)

Lemma frame_as_advance dt now a :
  accumulator (frame dt now a) =
    loop_accumulator (advance (fun u : unit => u) fixedTimestep tt (accumulator a) dt) /\
  stepsTaken dt a =
    loop_steps (advance (fun u : unit => u) fixedTimestep tt (accumulator a) dt).
Proof.
  rewrite frame_accumulator. unfold stepsTaken, advance.
  apply stepLoop_world_indep; reflexivity.
Qed.

Lemma run_as_advances evs : forall a,
  let ls := advances (fun u : unit => u) fixedTimestep tt (accumulator a) (frameDeltas evs) in
  accumulator (run evs a) = accumulatorAfter (accumulator a) ls /\
  stepCalls (calls (run evs a)) = stepCalls (calls a) + totalSteps ls.
Proof.
  induction evs as [|e evs IH]; intros a; cbv zeta.
  - unfold totalSteps. simpl. split; [reflexivity|lia].
  - simpl run. destruct e as [r1 r2|dt now]; simpl handle.
    + change (frameDeltas (Spawn r1 r2 :: evs)) with (frameDeltas evs).
      destruct (IH (spawnCube r1 r2 a)) as [H1 H2].
      rewrite spawnCube_accumulator in H1, H2. rewrite spawnCube_stepCalls in H2.
      split; assumption.
    + change (frameDeltas (Frame dt now :: evs)) with (dt :: frameDeltas evs).
      simpl advances. rewrite accumulatorAfter_cons, totalSteps_cons.
      destruct (frame_as_advance dt now a) as [Ha Hs].
      destruct (IH (frame dt now a)) as [H1 H2].
      rewrite frame_stepCalls, Ha, Hs in H2. rewrite Ha in H1.
      set (l := advance (fun u : unit => u) fixedTimestep tt (accumulator a) dt) in *.
      destruct (loop_world l). split; [exact H1|lia].
Qed.

(** X8.  The accumulator and the number of [world.step()] calls of a run
    are decided by the samples of the clock alone: they are those of the
    bare loop run on these samples, whatever the physics engine, the spawn
    ticks in between, the random numbers and the times the tracker reads. *)
Theorem steps_depend_only_on_samples (t0 : JS.number) evs :
  let a := run evs (setup t0) in
  let ls := advances (fun u : unit => u) fixedTimestep tt 0%float (frameDeltas evs) in
  accumulator a = accumulatorAfter 0%float ls /\
  stepCalls (calls a) = totalSteps ls.
Proof.
  cbv zeta. destruct (run_as_advances evs (setup t0)) as [H1 H2].
  rewrite setup_accumulator in H1, H2. rewrite setup_calls in H2.
  split; [exact H1|exact H2].
Qed.

End MoreFrame.

(** ** The record of library calls over a run *)

Section MoreCalls.
Context {engine : RAPIER.Engine}.

Implicit Types (a : App) (c : Cube) (evs : list Event) (kind : Call -> bool).

Lemma countCalls_app kind (l1 l2 : list Call) :
  countCalls kind (l1 ++ l2) = countCalls kind l1 + countCalls kind l2.
Proof. unfold countCalls. rewrite List.filter_app, length_app. reflexivity. Qed.

Lemma countCalls_replicate kind k (x : Call) :
  kind x = false -> countCalls kind (replicate k x) = 0.
Proof.
  intros Hx. unfold countCalls. induction k as [|k IH]; simpl; [reflexivity|].
  rewrite Hx. exact IH.
Qed.

Lemma countCalls_copies kind cs :
  (forall c, kind (CallCopy c) = false) -> countCalls kind (CallCopy <$> cs) = 0.
Proof.
  intros Hk. unfold countCalls. induction cs as [|c cs IH]; simpl; [reflexivity|].
  rewrite Hk. exact IH.
Qed.

(** What [frame] adds to the count of a kind of call that is neither a step
    nor a copy. *)
Lemma frame_countCalls kind dt now a :
  kind CallStep = false -> (forall c, kind (CallCopy c) = false) ->
  countCalls kind (calls (frame dt now a)) =
  countCalls kind (calls a) + countCalls kind [CallRender (scene (frame dt now a))].
Proof.
  intros Hs Hc. rewrite frame_calls, !countCalls_app.
  rewrite countCalls_replicate by exact Hs. rewrite countCalls_copies by exact Hc. lia.
Qed.

Lemma spawnCube_calls r1 r2 a :
  exists added,
    calls (spawnCube r1 r2 a) = calls a ++ added /\
    countCalls isRender added = 0 /\
    countCalls isSceneAdd added = length (cubes (spawnCube r1 r2 a)) - length (cubes a) /\
    countCalls isCreateRigidBody added = length (cubes (spawnCube r1 r2 a)) - length (cubes a) /\
    countCalls isCreateCollider added = length (cubes (spawnCube r1 r2 a)) - length (cubes a) /\
    length (cubes a) <= length (cubes (spawnCube r1 r2 a)).
Proof.
  unfold spawnCube. destruct (50 <? _)%float.
  - destruct (RAPIER.createRigidBody _ _) as [body w1].
    destruct (RAPIER.createCollider _ body w1) as [col w2].
    eexists. cbn [calls cubes]. split; [reflexivity|].
    rewrite length_app. cbn [length].
    replace (length (cubes a) + 1 - length (cubes a)) with 1 by lia.
    repeat split; try reflexivity. lia.
  - exists []. rewrite app_nil_r, Nat.sub_diag. repeat split; reflexivity.
Qed.

Lemma run_calls_account evs : forall a,
  countCalls isRender (calls (run evs a)) = countCalls isRender (calls a) + frameCountOf evs /\
  stepCalls (calls (run evs a)) <= stepCalls (calls a) + 5 * frameCountOf evs /\
  countCalls isSceneAdd (calls (run evs a)) + length (cubes a) =
    countCalls isSceneAdd (calls a) + length (cubes (run evs a)) /\
  countCalls isCreateRigidBody (calls (run evs a)) + length (cubes a) =
    countCalls isCreateRigidBody (calls a) + length (cubes (run evs a)) /\
  countCalls isCreateCollider (calls (run evs a)) + length (cubes a) =
    countCalls isCreateCollider (calls a) + length (cubes (run evs a)).
Proof.
  induction evs as [|e evs IH]; intros a.
  - unfold frameCountOf. simpl. repeat split; lia.
  - simpl run. destruct (IH (handle a e)) as (H1 & H2 & H3 & H4 & H5).
    destruct e as [r1 r2|dt now]; simpl handle in *.
    + rewrite frameCountOf_cons_spawn.
      destruct (spawnCube_calls r1 r2 a) as (added & E & A1 & A2 & A3 & A4 & Hle).
      rewrite spawnCube_stepCalls in H2.
      rewrite E, countCalls_app in H1, H3, H4, H5.
      repeat split; lia.
    + rewrite frameCountOf_cons_frame.
      rewrite frame_cubes in H3, H4, H5.
      rewrite frame_stepCalls in H2. pose proof (stepsTaken_le dt a) as Hk.
      rewrite frame_countCalls in H1, H3, H4, H5 by (intros; reflexivity).
      change (countCalls isRender [CallRender (scene (frame dt now a))]) with 1 in H1.
      change (countCalls isSceneAdd [CallRender (scene (frame dt now a))]) with 0 in H3.
      change (countCalls isCreateRigidBody [CallRender (scene (frame dt now a))]) with 0 in H4.
      change (countCalls isCreateCollider [CallRender (scene (frame dt now a))]) with 0 in H5.
      repeat split; lia.
Qed.

(** X9.  The library calls of any run from the setup add up: the scene is
    rendered once per animation frame and never by a spawn tick; the world
    is stepped at most 5 times per frame; and as many meshes have been added
    to the scene, bodies created and colliders created as there are cube
    pairs, one of each per pair. *)
Theorem calls_account (t0 : JS.number) evs :
  let a := run evs (setup t0) in
  countCalls isRender (calls a) = frameCountOf evs /\
  stepCalls (calls a) <= 5 * frameCountOf evs /\
  countCalls isSceneAdd (calls a) = length (cubes a) /\
  countCalls isCreateRigidBody (calls a) = length (cubes a) /\
  countCalls isCreateCollider (calls a) = length (cubes a).
Proof.
  cbv zeta. destruct (run_calls_account evs (setup t0)) as (H1 & H2 & H3 & H4 & H5).
  rewrite setup_calls in *. rewrite setup_cubes in *.
  change (countCalls _ []) with 0 in *. change (stepCalls []) with 0 in *.
  simpl in *. repeat split; lia.
Qed.

(** *** What [frame] leaves alone in the scene *)

Lemma syncCubes_shape (w : RAPIER.World) cs : forall sl : THREE.Scene * list Call,
  (fun o => (THREE.kind o, THREE.castShadow o, THREE.receiveShadow o))
    <$> fst (syncCubes w cs sl) =
  (fun o => (THREE.kind o, THREE.castShadow o, THREE.receiveShadow o)) <$> fst sl.
Proof.
  intros sl. apply list_eq. intros i. rewrite !list_lookup_fmap.
  destruct (syncCubes_lookup w cs i) as [->|(c & _ & _ & ->)]; [reflexivity|].
  destruct (fst sl !! i); reflexivity.
Qed.

(** X10.  [frame] changes nothing of the scene but positions and
    orientations: it adds and removes no object, and every object keeps its
    kind and its shadow flags; the pairs and the displayed count are left as
    they are. *)
Theorem frame_keeps_scene_shape a (dt now : JS.number) :
  (fun o => (THREE.kind o, THREE.castShadow o, THREE.receiveShadow o))
    <$> scene (frame dt now a) =
  (fun o => (THREE.kind o, THREE.castShadow o, THREE.receiveShadow o)) <$> scene a /\
  length (scene (frame dt now a)) = length (scene a) /\
  cubes (frame dt now a) = cubes a /\
  cubesAmount (frame dt now a) = cubesAmount a.
Proof.
  split; [|split; [apply frame_scene_length|split; [apply frame_cubes|]]].
  - rewrite (frame_unfold dt now a). cbv zeta. cbn [scene]. apply syncCubes_shape.
  - rewrite (frame_unfold dt now a). reflexivity.
Qed.

Lemma run_cubes_ticks evs : forall a,
  length (cubes (run evs a)) <= length (cubes a) + spawnTicksOf evs.
Proof.
  induction evs as [|e evs IH]; intros a; [unfold spawnTicksOf; simpl; lia|].
  simpl run. specialize (IH (handle a e)).
  destruct e as [r1 r2|dt now]; simpl handle in *.
  - change (spawnTicksOf (Spawn r1 r2 :: evs)) with (S (spawnTicksOf evs)).
    destruct (spawnCube_cases r1 r2 a) as [[_ E]|(_ & body & w' & E & _)].
    + rewrite E in *. lia.
    + rewrite E, length_app in IH. simpl in IH. lia.
  - change (spawnTicksOf (Frame dt now :: evs)) with (spawnTicksOf evs).
    rewrite frame_cubes in IH. exact IH.
Qed.

(** X13.  The cubes grow by at most one per spawn tick: after any run from
    the setup there are no more pairs, and no more is displayed, than spawn
    ticks have come; frames add none. *)
Theorem cubes_bounded_by_ticks (t0 : JS.number) evs :
  let a := run evs (setup t0) in
  length (cubes a) <= spawnTicksOf evs /\ cubesAmount a <= spawnTicksOf evs.
Proof.
  cbv zeta. pose proof (run_cubes_ticks evs (setup t0)) as H.
  rewrite setup_cubes in H. simpl in H.
  rewrite (run_cubesAmount evs (setup t0) (setup_cubesAmount t0)). lia.
Qed.

End MoreCalls.

(** ** The effect, the camera and the resize handler *)

Section MorePage.
Context {engine : RAPIER.Engine}.

Import Page.

Implicit Types (p : Page) (evs : list PageEvent) (win : Window).

Lemma pageRun_snoc evs ev p : pageRun (evs ++ [ev]) p = pageHandle (pageRun evs p) ev.
Proof. unfold pageRun. rewrite foldl_app. reflexivity. Qed.

Lemma handleResize_new_Display win win' :
  handleResize win (new_Display win') = new_Display win.
Proof. reflexivity. Qed.

Lemma callbacks_snoc evs ev :
  callbacks (evs ++ [ev]) =
  callbacks evs ++ match ev with Callback e => [e] | _ => [] end.
Proof.
  unfold callbacks. rewrite bind_app. simpl. rewrite app_nil_r. reflexivity.
Qed.

Lemma resizes_snoc evs ev :
  resizes (evs ++ [ev]) =
  resizes evs ++ match ev with WindowResize win => [win] | _ => [] end.
Proof.
  unfold resizes. rewrite bind_app. simpl. rewrite app_nil_r. reflexivity.
Qed.

Lemma currentWindow_snoc win evs ev :
  currentWindow win (evs ++ [ev]) =
  match ev with WindowResize win' => win' | _ => currentWindow win evs end.
Proof.
  unfold currentWindow. rewrite resizes_snoc.
  destruct ev; rewrite ?app_nil_r; try reflexivity.
  rewrite last_snoc. reflexivity.
Qed.

(** What a page is after any events: not set up, or holding the one
    instance that the first effect run with the canvas mounted made. *)
Lemma pageRun_cases evs :
  let p := pageRun evs newPage in
  (neverMounted evs /\ finishedSetup p = false /\ instances p = []) \/
  (exists evs1 now win evs2,
     evs = evs1 ++ RunEffect true now win :: evs2 /\ neverMounted evs1 /\
     finishedSetup p = true /\
     instances p = [mkInstance (run (callbacks evs2) (setup now))
                               (new_Display (currentWindow win evs2))]).
Proof.
  cbv zeta. induction evs as [|ev evs IH] using rev_ind.
  - left. split; [|split; reflexivity]. intros m n w Hin. inversion Hin.
  - rewrite pageRun_snoc.
    destruct IH as [(Hnm & Hfin & Hinst)|(evs1 & now & win & evs2 & E & Hnm & Hfin & Hinst)].
    + destruct ev as [mounted now win|win|e]; simpl.
      * destruct mounted.
        -- right. exists evs, now, win, []. split; [reflexivity|]. split; [exact Hnm|].
           unfold effect. simpl. rewrite Hfin, Hinst. split; reflexivity.
        -- left. unfold effect. simpl. split; [|split; assumption].
           intros m n w Hin. apply elem_of_app in Hin as [Hin|Hin]; [eapply Hnm, Hin|].
           apply list_elem_of_singleton in Hin. congruence.
      * left. rewrite Hinst. split; [|split; [exact Hfin|reflexivity]].
        intros m n w Hin. apply elem_of_app in Hin as [Hin|Hin]; [eapply Hnm, Hin|].
        apply list_elem_of_singleton in Hin. discriminate.
      * left. rewrite Hinst. split; [|split; [exact Hfin|reflexivity]].
        intros m n w Hin. apply elem_of_app in Hin as [Hin|Hin]; [eapply Hnm, Hin|].
        apply list_elem_of_singleton in Hin. discriminate.
    + right. exists evs1, now, win, (evs2 ++ [ev]).
      split; [rewrite E, <- app_assoc; reflexivity|]. split; [exact Hnm|].
      rewrite callbacks_snoc, currentWindow_snoc.
      destruct ev as [mounted now' win'|win'|e]; simpl.
      * rewrite app_nil_r. unfold effect. rewrite Hfin.
        destruct mounted; simpl; split; assumption.
      * rewrite app_nil_r, Hinst. split; [exact Hfin|reflexivity].
      * rewrite Hinst, run_snoc. split; [exact Hfin|reflexivity].
Qed.

(** X11.  However often React runs the effect, the page is set up at most
    once.  Until an effect run finds the canvas mounted nothing is made (and
    [finishedSetup] stays false, so a later run can still set up); the first
    run that finds it makes the one instance, at its own time; every later
    run of the effect changes nothing.  The state of that instance is the
    setup followed by the callbacks that came after it: timer ticks and
    frames before the setup have no effect. *)
Theorem effect_sets_up_once evs :
  let p := pageRun evs newPage in
  length (instances p) <= 1 /\
  (finishedSetup p = true <-> instances p <> []) /\
  (forall mounted now win, finishedSetup p = true -> effect mounted now win p = p) /\
  ((neverMounted evs /\ instances p = []) \/
   (exists evs1 now win evs2,
      evs = evs1 ++ RunEffect true now win :: evs2 /\ neverMounted evs1 /\
      inst_app <$> instances p = [run (callbacks evs2) (setup now)])).
Proof.
  cbv zeta.
  destruct (pageRun_cases evs)
    as [(Hnm & Hfin & Hinst)|(evs1 & now & win & evs2 & E & Hnm & Hfin & Hinst)].
  - rewrite Hinst, Hfin. split; [simpl; lia|]. split; [split; [discriminate|congruence]|].
    split; [discriminate|]. left. split; [exact Hnm|reflexivity].
  - rewrite Hinst, Hfin. split; [simpl; lia|]. split; [split; [discriminate|reflexivity]|].
    split.
    + intros mounted now' win' _. unfold effect. rewrite Hfin.
      destruct mounted; reflexivity.
    + right. exists evs1, now, win, evs2. split; [exact E|]. split; [exact Hnm|reflexivity].
Qed.

(** X12.  Once the page is set up, the camera and the renderer are at every
    moment what [new Camera()] and [setSize] make of the window of the last
    resize (of the setup, before any resize): the aspect is that window's
    width over its height, the renderer has its width and height, and the
    field of view, the clip planes and the position of the camera are those
    of the constructor.  Resizes before the setup leave no trace. *)
Theorem display_follows_window evs1 (now : JS.number) win evs2 :
  neverMounted evs1 ->
  let p := pageRun (evs1 ++ RunEffect true now win :: evs2) newPage in
  let w := currentWindow win evs2 in
  inst_display <$> instances p = [new_Display w] /\
  (forall d, d ∈ inst_display <$> instances p ->
     aspect (camera d) = (innerWidth w / innerHeight w)%float /\
     rendererSize d = (innerWidth w, innerHeight w) /\
     field_of_view (camera d) = 75%float /\
     camera_position (camera d) = THREE.mkVector3 0 20 30).
Proof.
  intros Hnm. cbv zeta.
  assert (Hd : inst_display <$>
                 instances (pageRun (evs1 ++ RunEffect true now win :: evs2) newPage) =
               [new_Display (currentWindow win evs2)]).
  { destruct (pageRun_cases (evs1 ++ RunEffect true now win :: evs2))
      as [(Hnm' & _)|(evs1' & now' & win' & evs2' & E & Hnm' & _ & Hinst)].
    - exfalso. specialize (Hnm' true now win). assert (true = false); [|discriminate].
      apply Hnm'. apply elem_of_app. right. left.
    - assert (Hlen : length evs1 = length evs1').
      { destruct (Nat.lt_trichotomy (length evs1) (length evs1')) as [Hlt|[Heq|Hgt]];
          [|exact Heq|]; exfalso.
        - assert (Hl : (evs1' ++ RunEffect true now' win' :: evs2') !! length evs1
                       = Some (RunEffect true now win)).
          { rewrite <- E. rewrite lookup_app_r by lia. rewrite Nat.sub_diag. reflexivity. }
          rewrite lookup_app_l in Hl by lia.
          apply list_elem_of_lookup_2 in Hl. apply Hnm' in Hl. discriminate.
        - assert (Hl : (evs1 ++ RunEffect true now win :: evs2) !! length evs1'
                       = Some (RunEffect true now' win')).
          { rewrite E. rewrite lookup_app_r by lia. rewrite Nat.sub_diag. reflexivity. }
          rewrite lookup_app_l in Hl by lia.
          apply list_elem_of_lookup_2 in Hl. apply Hnm in Hl. discriminate. }
      apply app_inj_1 in E as [E1 E2]; [|exact Hlen].
      inversion E2; subst. rewrite Hinst. reflexivity. }
  split; [exact Hd|]. intros d Hin. rewrite Hd in Hin.
  apply list_elem_of_singleton in Hin. subst d. repeat split.
Qed.

End MorePage.

(** ** These properties at concrete inputs *)

(** X2, witness: two spawn ticks and two frames within 499 ms of the setup. *)
Lemma no_spawn_in_first_window_witness :
  cubes (run [Spawn 0.5 0.25; Frame 0.016 16; Spawn 0.1 0.9; Frame 0.016 499]
             (setup (engine := Falling.engine) 0)) = [] /\
  cubesAmount (run [Spawn 0.5 0.25; Frame 0.016 16; Spawn 0.1 0.9; Frame 0.016 499]
                   (setup (engine := Falling.engine) 0)) = 0.
Proof.
  destruct (no_spawn_in_first_window (engine := Falling.engine) 0
              [Spawn 0.5 0.25; Frame 0.016 16; Spawn 0.1 0.9; Frame 0.016 499])
    as (H1 & H2 & _).
  - repeat constructor.
  - split; assumption.
Defined.

(** X6, witness: a NaN sample, then samples of 0.05 and 0.2, which would
    otherwise give 3 and 5 steps. *)
Lemma nan_sample_stalls_witness :
  stepCalls (calls (run [Frame 0.05 10; Frame 0.2 20]
                        (frame nan 0 (setup (engine := Falling.engine) 0)))) = 0.
Proof.
  destruct (nan_sample_stalls (setup (engine := Falling.engine) 0) nan 0
              [Frame 0.05 10; Frame 0.2 20] eq_refl) as (_ & _ & H).
  rewrite H. reflexivity.
Defined.

(** X7, witness: an infinite sample, then samples of 0 and 0.01. *)
Lemma infinite_sample_saturates_witness :
  stepCalls (calls (run [Frame 0 10; Spawn 0.5 0.25; Frame 0.01 20]
                        (frame infinity 0 (setup (engine := Falling.engine) 0)))) = 15.
Proof.
  destruct (infinite_sample_saturates (setup (engine := Falling.engine) 0) 0
              [Frame 0 10; Spawn 0.5 0.25; Frame 0.01 20]) as (_ & H).
  - reflexivity.
  - repeat constructor.
  - rewrite H. reflexivity.
Defined.

(** X12, witness: a resize and an effect run without canvas come first;
    the setup happens in a window of 800 by 600; after a frame, a resize to
    1024 by 512 and one more run of the effect the aspect is 2. *)
Lemma display_follows_window_witness :
  Page.inst_display (engine := Falling.engine) <$>
    Page.instances
      (Page.pageRun
         ([Page.WindowResize (Page.mkWindow 640 480);
           Page.RunEffect false 0 (Page.mkWindow 640 480)] ++
          Page.RunEffect true 5 (Page.mkWindow 800 600) ::
          [Page.Callback (Frame 0.016 21);
           Page.WindowResize (Page.mkWindow 1024 512);
           Page.RunEffect true 9 (Page.mkWindow 1024 512)])
         Page.newPage) =
  [Page.new_Display (Page.mkWindow 1024 512)] /\
  Page.aspect (Page.camera (Page.new_Display (Page.mkWindow 1024 512))) = 2%float.
Proof.
  split; [|reflexivity].
  apply (display_follows_window (engine := Falling.engine)
           [Page.WindowResize (Page.mkWindow 640 480);
            Page.RunEffect false 0 (Page.mkWindow 640 480)]
           5 (Page.mkWindow 800 600)
           [Page.Callback (Frame 0.016 21);
            Page.WindowResize (Page.mkWindow 1024 512);
            Page.RunEffect true 9 (Page.mkWindow 1024 512)]).
  intros m n w Hin.
  apply elem_of_cons in Hin as [Hin|Hin]; [discriminate|].
  apply elem_of_cons in Hin as [Hin|Hin]; [congruence|].
  inversion Hin.
Defined.

(** The effect run twice with the canvas mounted sets up once: the page
    holds the instance of the first run. *)
Example effect_twice :
  Page.pageRun (engine := Falling.engine)
    [Page.RunEffect true 5 (Page.mkWindow 800 600);
     Page.RunEffect true 6 (Page.mkWindow 800 600)] Page.newPage =
  Page.pageRun (engine := Falling.engine)
    [Page.RunEffect true 5 (Page.mkWindow 800 600)] Page.newPage.
Proof. reflexivity. Qed.
